(** * XMLParser: a shallow embedding of [xml_parser.py] and
      [xml_element_parsers.py]

    The development follows the Python sources method by method.

    - An [Element] is an [xml.etree.ElementTree.Element]: tag, attribute
      dictionary, optional text, ordered children.  Python compares elements
      by object identity ([==] and [in] on elements are identity tests, the
      class defines no [__eq__]); the field [eid] is that identity.
    - A [Value] is what the folds build: [None], a string, an
      insertion-ordered [dict], a [list].
    - A raising call is a [Raise]; methods of the parser object thread the
      object explicitly and return it next to their outcome, so that the
      object after a raising call can be inspected.

    Outside the model: the XML reader itself ([ET.parse]; documents are given
    as the trees it builds), the interpreter's recursion limit, and
    ElementPath syntax in [Element.find] (plain tag names only). *)

From Stdlib Require Import ZArith Ascii String.
From stdpp Require Import base option list strings gmap.

Set Warnings "-register-all".


(** ** Outcomes of Python calls *)

Inductive PyError : Type :=
| ValueError
| IndexError
| AttributeError.

Inductive Result (A : Type) : Type :=
| Ok (a : A)
| Raise (e : PyError).

Arguments Ok {A} a.
Arguments Raise {A} e.

Global Instance Result_ret : MRet Result := λ A a, Ok a.
Global Instance Result_bind : MBind Result := λ A B k r,
  match r with
  | Ok a => k a
  | Raise e => Raise e
  end.

Definition raises {A : Type} (r : Result A) : Prop :=
  match r with
  | Ok _ => False
  | Raise _ => True
  end.

(** ** Data model *)

(** A dictionary key of the produced structures: a string, or Python's
    [None] (a missing [NAME] attribute used as a key). *)
Abbreviation Key := (option string).

Inductive Value : Type :=
| VNone
| VStr (s : string)
| VDict (items : list (Key * Value))
| VList (elems : list Value).

Inductive Element : Type := mkElement {
  eid : nat;
  tag : string;
  attrib : gmap string string;
  text : option string;
  children : list Element
}.

(** [child.attrib.get('NAME')] *)
Definition get_NAME (e : Element) : option string := attrib e !! "NAME".

(** [Element.iter()]: the element, then its descendants, in document order. *)
Fixpoint iter (e : Element) : list Element :=
  e :: (children e ≫= iter).

(** [a == b], [a is b] on elements. *)
Definition same_object (a b : Element) : bool := bool_decide (eid a = eid b).

(** ** Dictionaries of the output: insertion-ordered *)

(** [d[k] = v]: an existing key keeps its place, a new one goes last. *)
Fixpoint dict_set (k : Key) (v : Value) (d : list (Key * Value)) : list (Key * Value) :=
  match d with
  | [] => [(k, v)]
  | (k', v') :: d' =>
      if decide (k = k') then (k', v) :: d' else (k', v') :: dict_set k v d'
  end.

Fixpoint dict_get (k : Key) (d : list (Key * Value)) : option Value :=
  match d with
  | [] => None
  | (k', v') :: d' => if decide (k = k') then Some v' else dict_get k d'
  end.

(** A string or [None] used as a value. *)
Definition key_value (k : Key) : Value :=
  match k with
  | Some s => VStr s
  | None => VNone
  end.

Definition text_value (t : option string) : Value :=
  match t with
  | Some s => VStr s
  | None => VNone
  end.

(** [list(child_info.items())[0]] *)
Definition first_item (child_info : Value) : Result (Key * Value) :=
  match child_info with
  | VDict [] => Raise IndexError
  | VDict (kv :: _) => Ok kv
  | _ => Raise AttributeError
  end.

(** [{'name': name, 'data': data}] *)
Definition name_data (name : Key) (data : Value) : Value :=
  VDict [(Some "name", key_value name); (Some "data", data)].

(** ** Strategies *)

(** The [ParsingStrategy] interface: one method, from an element to whatever
    the implementation returns (or raises). *)
Record ParsingStrategy : Type := {
  strategy_recursive_parse : Element → Result Value
}.

(** [AttributeParsingStrategy.recursive_parse] *)
Definition attribute_recursive_parse (element : Element) : Result Value :=
  let child_elements :=
    fold_left (λ child_elements child,
                 dict_set (get_NAME child) (text_value (text child)) child_elements)
              (children element) [] in
  Ok (VDict [(Some (tag element), VDict child_elements)]).

Definition AttributeParsingStrategy : ParsingStrategy :=
  {| strategy_recursive_parse := attribute_recursive_parse |}.

(** ** The recursive fold *)

(** [len(child_element_tags) != len(set(child_element_tags))] *)
Definition tags_collide (child_element_tags : list string) : bool :=
  bool_decide (length child_element_tags ≠
               size (list_to_set child_element_tags : gset string)).

Section default_loops.
(** The two [for child in element] loops of the default fold, over the
    recursive call [rp]. *)
Variable rp : Element → Result Value.

(** [(name, data) = list(self.recursive_parse(child).items())[0]] *)
Definition child_pair (child : Element) : Result (Key * Value) :=
  child_info ← rp child; first_item child_info.

Fixpoint loop_records (cs : list Element) (child_elements : list Value)
  : Result (list Value) :=
  match cs with
  | [] => Ok child_elements
  | child :: rest =>
      child_info ← rp child;
      '(name, data) ← first_item child_info;
      loop_records rest (child_elements ++ [name_data name data])
  end.

Fixpoint loop_mapping (cs : list Element) (child_elements : list (Key * Value))
  : Result (list (Key * Value)) :=
  match cs with
  | [] => Ok child_elements
  | child :: rest =>
      child_info ← rp child;
      '(name, data) ← first_item child_info;
      loop_mapping rest (dict_set name data child_elements)
  end.
End default_loops.

(** The [return] at the end of either branch. *)
Definition keyed_by_self (element : Element) (inner : Value) : Value :=
  match get_NAME element with
  | None => VDict [(Some (tag element), inner)]
  | Some name => VDict [(Some name, inner)]
  end.

(** [XMLParser.recursive_parse], with [self.parsing_strategies] as
    [strategies]. *)
Fixpoint recursive_parse (strategies : gmap string ParsingStrategy)
    (element : Element) : Result Value :=
  match strategies !! tag element with
  | Some strategy => strategy_recursive_parse strategy element
  | None =>
      let child_element_tags := tag <$> children element in
      if tags_collide child_element_tags then
        child_elements ← loop_records (recursive_parse strategies) (children element) [];
        Ok (keyed_by_self element (VList child_elements))
      else
        child_elements ← loop_mapping (recursive_parse strategies) (children element) [];
        Ok (keyed_by_self element (VDict child_elements))
  end.

(** [XMLParser.recursive_parse] once more, this time also reporting, in
    the order of execution, every element on which the body of the [else:]
    branch (the default recursion) was entered. *)
Section traced_loop.
Context {Acc : Type}.
Variable rp : Element → list Element * Result Value.
(** What the loop body does with the child's pair: [append] in the first
    loop, item assignment in the second. *)
Variable add : Acc → Key → Value → Acc.

Fixpoint traced_loop (cs : list Element) (child_elements : Acc)
  : list Element * Result Acc :=
  match cs with
  | [] => ([], Ok child_elements)
  | child :: rest =>
      let '(seen, r) := rp child in
      match child_info ← r; first_item child_info with
      | Raise e => (seen, Raise e)
      | Ok (name, data) =>
          let '(seen', r') := traced_loop rest (add child_elements name data) in
          (seen ++ seen', r')
      end
  end.
End traced_loop.

Fixpoint recursive_parse_traced (strategies : gmap string ParsingStrategy)
    (element : Element) : list Element * Result Value :=
  match strategies !! tag element with
  | Some strategy => ([], strategy_recursive_parse strategy element)
  | None =>
      let child_element_tags := tag <$> children element in
      if tags_collide child_element_tags then
        let '(seen, r) :=
          traced_loop (recursive_parse_traced strategies)
            (λ child_elements name data, child_elements ++ [name_data name data])
            (children element) [] in
        (element :: seen,
         child_elements ← r; Ok (keyed_by_self element (VList child_elements)))
      else
        let '(seen, r) :=
          traced_loop (recursive_parse_traced strategies)
            (λ child_elements name data, dict_set name data child_elements)
            (children element) [] in
        (element :: seen,
         child_elements ← r; Ok (keyed_by_self element (VDict child_elements)))
  end.

(** ** Strings: [re.match], [str.split], [str.join] *)

(** [.] matches every character but the newline. *)
Definition dot (c : ascii) : bool := negb (Ascii.eqb c "010"%char).

Section backtracking.
Context {A : Type}.
(** What remains of the pattern after the group. *)
Variable k : string → option A.

(** A greedy group of dots and then [k]: the longest run first, one
    character given back at a time until [k] matches. *)
Fixpoint dot_star (s : string) : option (string * A) :=
  match s with
  | EmptyString => pair "" <$> k ""
  | String c s' =>
      if dot c then
        match dot_star s' with
        | Some (g, r) => Some (String c g, r)
        | None => pair "" <$> k s
        end
      else pair "" <$> k s
  end.

(** One literal character and then [k]. *)
Definition lit (c : ascii) (s : string) : option A :=
  match s with
  | EmptyString => None
  | String c' s' => if Ascii.eqb c c' then k s' else None
  end.
End backtracking.

(** [re.match] with the pattern of [go_to_child] and [add_to_data] (a greedy
    group of dots, an opening bracket, a second greedy group of dots, a
    closing bracket) and, on a match, its [.groups()].  [re.match] anchors
    the pattern at the start of the string only. *)
Definition re_match (s : string) : option (string * string) :=
  match dot_star (lit (dot_star (lit (λ _, Some tt) "]")) "[") s with
  | Some (t, (name, _)) => Some (t, name)
  | None => None
  end.

(** [s.split(sep)] for a one-character separator. *)
Fixpoint split (sep : ascii) (s : string) : list string :=
  match s with
  | EmptyString => [""]
  | String c s' =>
      if Ascii.eqb c sep then "" :: split sep s'
      else match split sep s' with
           | h :: t => String c h :: t
           | [] => [String c ""]
           end
  end.

(** [sep.join(l)] *)
Fixpoint join (sep : string) (l : list string) : string :=
  match l with
  | [] => ""
  | [x] => x
  | x :: rest => x +:+ sep +:+ join sep rest
  end.

(** ** Python lists *)

(** [l[i]], negative indices counting from the end. *)
Definition py_index {A : Type} (l : list A) (i : Z) : Result A :=
  let n := Z.of_nat (length l) in
  let j := if (i <? 0)%Z then (i + n)%Z else i in
  if ((0 <=? j) && (j <? n))%Z
  then from_option Ok (Raise IndexError) (l !! Z.to_nat j)
  else Raise IndexError.

(** [l.pop()]: the list without its last item; [None] when it raises. *)
Definition pop {A : Type} (l : list A) : option (list A) :=
  match l with
  | [] => None
  | _ :: _ => Some (removelast l)
  end.

(** ** The parser object *)

Record XMLParser : Type := mkXMLParser {
  root : Element;
  current_element : Element;
  current_path : list string;
  data : gmap Key (option string);
  parsing_strategies : gmap string ParsingStrategy
}.

Definition set_current_element (e : Element) (self : XMLParser) : XMLParser :=
  mkXMLParser (root self) e (current_path self) (data self) (parsing_strategies self).

Definition set_current_path (path : list string) (self : XMLParser) : XMLParser :=
  mkXMLParser (root self) (current_element self) path (data self) (parsing_strategies self).

Definition set_data (d : gmap Key (option string)) (self : XMLParser) : XMLParser :=
  mkXMLParser (root self) (current_element self) (current_path self) d (parsing_strategies self).

(** [XMLParser.__init__], from the root of the parsed tree. *)
Definition init (parsed_root : Element) (strategies : gmap string ParsingStrategy)
  : XMLParser :=
  mkXMLParser parsed_root parsed_root [tag parsed_root] ∅ strategies.

(** [XMLParser.set_strategy] *)
Definition set_strategy (strategies : gmap string ParsingStrategy) (self : XMLParser)
  : XMLParser :=
  mkXMLParser (root self) (current_element self) (current_path self) (data self) strategies.

Definition get_current_info (self : XMLParser) : string * option string * option string :=
  (tag (current_element self), get_NAME (current_element self), text (current_element self)).

Definition get_current_path (self : XMLParser) : string :=
  join "/" (current_path self).

Definition get_child_info (self : XMLParser) : list (string * option string * option string) :=
  (λ child, (tag child, get_NAME child, text child)) <$> children (current_element self).

Definition get_data (self : XMLParser) : gmap Key (option string) := data self.

(** The list [children_with_info] of [go_to_child]. *)
Definition children_with_info (child_info : string) (cur : Element) : list Element :=
  match re_match child_info with
  | Some (t, name) =>
      filter (λ child, tag child = t ∧ get_NAME child = Some name) (children cur)
  | None =>
      filter (λ child, tag child = child_info) (children cur)
  end.

(** [XMLParser.go_to_child] *)
Definition go_to_child (child_info : string) (occurrence : Z) (self : XMLParser)
  : Result unit * XMLParser :=
  let matches := children_with_info child_info (current_element self) in
  if (occurrence <? Z.of_nat (length matches))%Z then
    match py_index matches occurrence with
    | Ok child =>
        (Ok tt,
         set_current_path (current_path self ++ [child_info])
           (set_current_element child self))
    | Raise e => (Raise e, self)
    end
  else (Raise ValueError, self).

(** [cur in list(parent)] *)
Definition has_child (parent cur : Element) : bool :=
  existsb (same_object cur) (children parent).

(** [XMLParser.go_to_parent] *)
Definition go_to_parent (self : XMLParser) : Result unit * XMLParser :=
  if same_object (current_element self) (root self) then (Raise ValueError, self)
  else
    match List.find (λ parent, has_child parent (current_element self))
                    (iter (root self)) with
    | Some parent =>
        let self' := set_current_element parent self in
        match pop (current_path self') with
        | Some path => (Ok tt, set_current_path path self')
        | None => (Raise IndexError, self')
        end
    | None => (Ok tt, self)
    end.

(** A character of a plain tag name: an ASCII letter, a digit, an
    underscore or a hyphen. *)
Definition name_char (c : ascii) : bool :=
  let n := nat_of_ascii c in
  (Nat.leb 65 n && Nat.leb n 90) || (Nat.leb 97 n && Nat.leb n 122) ||
  (Nat.leb 48 n && Nat.leb n 57) || Ascii.eqb c "_" || Ascii.eqb c "-".

Fixpoint name_chars (s : string) : bool :=
  match s with
  | EmptyString => true
  | String c s' => name_char c && name_chars s'
  end.

(** A plain tag name: not empty, made of such characters only.  It holds
    none of the characters ElementPath gives a meaning to (slash, star, dot,
    at sign, brackets, braces, parentheses, colon, equals sign, exclamation
    mark, quotes, white space). *)
Definition plain_name (s : string) : bool :=
  match s with
  | EmptyString => false
  | String _ _ => name_chars s
  end.

(** [current_element.find(t)]: the first direct child with the tag [t].
    This is what [Element.find] does when [t] is a plain tag name
    ([plain_name]); any other [t] is an ElementPath expression to
    [Element.find] (a star selects every child, a dot the element itself, an
    unbalanced bracket raises), which this definition does not follow.
    Properties of [add_to_data] that depend on the lookup are stated for
    segments that are plain names or match the pattern
    ([modelled_segment]). *)
Definition find_tag (t : string) (cur : Element) : option Element :=
  List.find (λ child, bool_decide (tag child = t)) (children cur).

(** The [for element in elements] loop of [add_to_data]. *)
Fixpoint resolve (elements : list string) (cur : Element) : Result Element :=
  match elements with
  | [] => Ok cur
  | element :: rest =>
      match re_match element with
      | Some (t, name) =>
          match List.find (λ child, bool_decide (tag child = t ∧ get_NAME child = Some name))
                          (children cur) with
          | Some child => resolve rest child
          | None => Raise ValueError
          end
      | None =>
          match find_tag element cur with
          | Some child => resolve rest child
          | None => Raise ValueError
          end
      end
  end.

(** [XMLParser.add_to_data]; [key = None] is the default argument. *)
Definition add_to_data (path : string) (key : option string) (self : XMLParser)
  : Result unit * XMLParser :=
  let elements := tail (split "/" path) in
  match resolve elements (root self) with
  | Raise e => (Raise e, self)
  | Ok cur =>
      let key := match key with
                 | Some k => Some k
                 | None => get_NAME cur
                 end in
      (Ok tt, set_data (<[key := text cur]> (data self)) self)
  end.

(** [XMLParser.parse] *)
Definition parse (self : XMLParser) : Result Value :=
  recursive_parse (parsing_strategies self) (root self).

(** ** States of the parser object *)

(** [e] lies [n] levels below [r]. *)
Inductive below (r : Element) : Element → nat → Prop :=
| below_self : below r r 0
| below_child p e n : below r p n → e ∈ children p → below r e (S n).

(** Every element object occurs once in the tree: what [ET.parse] builds. *)
Definition unique_ids (r : Element) : Prop := NoDup (eid <$> iter r).

(** The cursor is an element of the tree and the path stack has one entry
    per level down to it, the root's included. *)
Record consistent (self : XMLParser) : Prop := {
  consistent_ids : unique_ids (root self);
  consistent_cursor :
    ∃ n, below (root self) (current_element self) n ∧
         length (current_path self) = S n
}.

(** One call of a state-changing method, whatever its outcome. *)
Inductive call : XMLParser → XMLParser → Prop :=
| call_go_to_child child_info occurrence self :
    call self (go_to_child child_info occurrence self).2
| call_go_to_parent self :
    call self (go_to_parent self).2
| call_add_to_data path key self :
    call self (add_to_data path key self).2
| call_set_strategy strategies self :
    call self (set_strategy strategies self).

(** The states a parser object built on [parsed_root] can be in. *)
Definition reachable (parsed_root : Element) (self : XMLParser) : Prop :=
  ∃ strategies, rtc call (init parsed_root strategies) self.

(** ** The documents of the scenarios, as [ET.parse] builds them *)

Definition leaf (i : nat) (t : string) (name : string) (x : string) : Element :=
  mkElement i t {["NAME" := name]} (Some x) [].

(** [<ROOT><ITEM NAME="a">1</ITEM><ITEM NAME="b">2</ITEM></ROOT>] *)
Definition doc_items : Element :=
  mkElement 0 "ROOT" ∅ None [leaf 1 "ITEM" "a" "1"; leaf 2 "ITEM" "b" "2"].

(** [<ROOT><X NAME="p">1</X><Y NAME="q">2</Y></ROOT>] *)
Definition doc_xy : Element :=
  mkElement 0 "ROOT" ∅ None [leaf 1 "X" "p" "1"; leaf 2 "Y" "q" "2"].


(** [<R><X NAME="p"><Z/></X><Y NAME="p"/></R>]: two children with different
    tags and the same [NAME]. *)
Definition doc_same_name : Element :=
  mkElement 0 "R" ∅ None
    [mkElement 1 "X" {["NAME" := "p"]} None [mkElement 2 "Z" ∅ None []];
     mkElement 3 "Y" {["NAME" := "p"]} None []].

(** [<A><B/></A>] *)
Definition doc_ab : Element :=
  mkElement 0 "A" ∅ None [mkElement 1 "B" ∅ None []].

(** A strategy that returns the empty dictionary. *)
Definition EmptyStrategy : ParsingStrategy :=
  {| strategy_recursive_parse := λ _, Ok (VDict []) |}.

(** The key under which the default fold files an element. *)
Definition self_key (element : Element) : string :=
  match get_NAME element with
  | Some name => name
  | None => tag element
  end.

(** The (key, value) pairs of the children, in document order, or the first
    error met on the way. *)
Fixpoint child_pairs (rp : Element → Result Value) (cs : list Element)
  : Result (list (Key * Value)) :=
  match cs with
  | [] => Ok []
  | child :: rest =>
      kv ← child_pair rp child;
      kvs ← child_pairs rp rest;
      Ok (kv :: kvs)
  end.

(** ** Notions used to state properties *)

(** The character [c] occurs in [s]. *)
Fixpoint occurs (c : ascii) (s : string) : bool :=
  match s with
  | EmptyString => false
  | String c' s' => Ascii.eqb c c' || occurs c s'
  end.

(** The same tree with every text taken out. *)
Fixpoint forget_text (e : Element) : Element :=
  mkElement (eid e) (tag e) (attrib e) None (forget_text <$> children e).

(** What [AttributeParsingStrategy] reads of an element: its tag and, for
    each child in order, the [NAME] and the text. *)
Definition attribute_view (e : Element) : string * list (option string * option string) :=
  (tag e, (λ child, (get_NAME child, text child)) <$> children e).

(** A path segment that [add_to_data] handles without ElementPath: it
    matches the pattern (and is compared with tag and [NAME] of the children
    by the loop of [add_to_data] itself), or it is a plain tag name (and
    [Element.find] returns the first child with that tag). *)
Definition modelled_segment (segment : string) : bool :=
  match re_match segment with
  | Some _ => true
  | None => plain_name segment
  end.

(** The path stack addresses the cursor: it is not empty, no entry holds a
    slash, the entries after the first match the pattern or are plain tag
    names and, resolved from the root as [add_to_data] resolves them, lead to
    the cursor. *)
Definition addressed (self : XMLParser) : Prop :=
  current_path self ≠ [] ∧
  Forall (λ entry, occurs "/" entry = false) (current_path self) ∧
  Forall (λ entry, modelled_segment entry = true) (tail (current_path self)) ∧
  resolve (tail (current_path self)) (root self) = Ok (current_element self).

(** The shape of the default fold in the words of the specification: a
    single-key record under the element's own key whose inner value maps the
    key of every child's fold to the value of that child's fold when the
    children's tags are pairwise distinct, and lists one [{name, data}]
    record per child, in document order, when a tag repeats. *)
Definition default_fold_as_specified (strategies : gmap string ParsingStrategy)
    (element : Element) : Prop :=
  ∃ inner,
    recursive_parse strategies element = Ok (VDict [(Some (self_key element), inner)]) ∧
    (NoDup (tag <$> children element) →
       ∃ m, inner = VDict m ∧
            ∀ child, child ∈ children element →
              ∃ k v, child_pair (recursive_parse strategies) child = Ok (k, v) ∧
                     dict_get k m = Some v) ∧
    (¬ NoDup (tag <$> children element) →
       ∃ records, inner = VList records ∧
            Forall2 (λ child record,
                       ∃ k v, child_pair (recursive_parse strategies) child = Ok (k, v) ∧
                              record = name_data k v)
                    (children element) records).

(** * Properties *)

(** Induction over the element tree, children included. *)
Lemma Element_tree_ind (P : Element → Prop) :
  (∀ e, Forall P (children e) → P e) →
  ∀ e, P e.
Proof.
  intros step. fix IH 1. intros [i t a x cs]. apply step. simpl.
  induction cs as [|c cs IHcs]; constructor; [apply IH | exact IHcs].
Qed.

(** ** Collision test *)

Lemma size_list_to_set_le (l : list string) :
  size (list_to_set l : gset string) ≤ length l.
Proof.
  induction l as [|x l IH].
  - rewrite list_to_set_nil, size_empty. done.
  - rewrite list_to_set_cons. cbn [length].
    destruct (decide (x ∈ (list_to_set l : gset string))) as [Hin|Hnin].
    + assert ({[x]} ∪ list_to_set l = (list_to_set l : gset string)) as ->
        by (apply subseteq_union_1_L, singleton_subseteq_l; exact Hin).
      lia.
    + rewrite size_union by (by apply disjoint_singleton_l). rewrite size_singleton. lia.
Qed.

Lemma tags_collide_false (l : list string) : tags_collide l = false ↔ NoDup l.
Proof.
  unfold tags_collide. rewrite bool_decide_eq_false. split.
  - intros Heq. apply dec_stable in Heq.
    induction l as [|x l IH]; [constructor|].
    rewrite list_to_set_cons in Heq. cbn [length] in Heq.
    destruct (decide (x ∈ (list_to_set l : gset string))) as [Hin|Hnin].
    + assert ({[x]} ∪ list_to_set l = (list_to_set l : gset string)) as Hsame
        by (apply subseteq_union_1_L, singleton_subseteq_l; exact Hin).
      rewrite Hsame in Heq.
      pose proof (size_list_to_set_le l). lia.
    + rewrite size_union, size_singleton in Heq by (by apply disjoint_singleton_l).
      constructor; [by rewrite elem_of_list_to_set in Hnin|].
      apply IH. lia.
  - intros Hnd Hne. apply Hne. symmetry. by apply size_list_to_set.
Qed.

Lemma tags_collide_true (l : list string) : tags_collide l = true ↔ ¬ NoDup l.
Proof.
  rewrite <- tags_collide_false. destruct (tags_collide l); naive_solver.
Qed.

(** ** The two loops, in terms of the children's pairs *)

Lemma keyed_by_self_eq element inner :
  keyed_by_self element inner = VDict [(Some (self_key element), inner)].
Proof. unfold keyed_by_self, self_key. by destruct (get_NAME element). Qed.

Section loops.
Variable rp : Element → Result Value.

Lemma loop_records_pairs cs acc :
  loop_records rp cs acc =
    kvs ← child_pairs rp cs;
    Ok (acc ++ ((λ kv, name_data kv.1 kv.2) <$> kvs)).
Proof.
  revert acc. induction cs as [|c cs IH]; intros acc; simpl.
  - by rewrite app_nil_r.
  - unfold child_pair. destruct (rp c) as [info|e]; simpl; [|done].
    destruct (first_item info) as [[name d]|e]; simpl; [|done].
    rewrite IH. destruct (child_pairs rp cs) as [kvs|e]; simpl; [|done].
    by rewrite <- app_assoc.
Qed.

Lemma loop_mapping_pairs cs acc :
  loop_mapping rp cs acc =
    kvs ← child_pairs rp cs;
    Ok (fold_left (λ d kv, dict_set kv.1 kv.2 d) kvs acc).
Proof.
  revert acc. induction cs as [|c cs IH]; intros acc; simpl.
  - done.
  - unfold child_pair. destruct (rp c) as [info|e]; simpl; [|done].
    destruct (first_item info) as [[name d]|e]; simpl; [|done].
    rewrite IH. by destruct (child_pairs rp cs) as [kvs|e].
Qed.

Lemma child_pairs_Ok cs kvs :
  child_pairs rp cs = Ok kvs ↔ Forall2 (λ c kv, child_pair rp c = Ok kv) cs kvs.
Proof.
  revert kvs. induction cs as [|c cs IH]; intros kvs; simpl.
  - split.
    + intros [= <-]. constructor.
    + by intros ->%Forall2_nil_inv_l.
  - split.
    + destruct (child_pair rp c) as [kv|e] eqn:Hkv; simpl; [|done].
      destruct (child_pairs rp cs) as [kvs'|e] eqn:Hrest; simpl; [|done].
      intros [= <-]. constructor; [done|]. by apply IH.
    + intros (kv & kvs' & Hkv & Hrest & ->)%Forall2_cons_inv_l.
      rewrite Hkv. simpl. apply IH in Hrest. by rewrite Hrest.
Qed.
End loops.

(** The first child without a pair decides the outcome of the loops. *)
Lemma child_pairs_first_failure rp before child after e :
  Forall (λ c, ∃ kv, child_pair rp c = Ok kv) before →
  child_pair rp child = Raise e →
  child_pairs rp (before ++ child :: after) = Raise e.
Proof.
  intros Hbefore Hchild. induction Hbefore as [|c cs [kv Hc] _ IH]; simpl.
  - by rewrite Hchild.
  - by rewrite Hc, IH.
Qed.

(** ** Dictionaries *)

Lemma dict_get_set k k' v d :
  dict_get k (dict_set k' v d) = if decide (k = k') then Some v else dict_get k d.
Proof.
  induction d as [|[k0 v0] d IH]; simpl.
  - by destruct (decide (k = k')).
  - destruct (decide (k' = k0)) as [->|Hne]; simpl.
    + by destruct (decide (k = k0)).
    + destruct (decide (k = k0)) as [->|Hne'].
      * by rewrite decide_False by done.
      * exact IH.
Qed.

Lemma dict_get_snoc k k' v d :
  dict_get k (d ++ [(k', v)]) =
    match dict_get k d with
    | Some w => Some w
    | None => if decide (k = k') then Some v else None
    end.
Proof.
  induction d as [|[k0 v0] d IH]; simpl; [done|].
  by destruct (decide (k = k0)).
Qed.

(** Item assignment in document order: for every key, the last pair wins. *)
Lemma dict_get_fold k kvs d :
  dict_get k (fold_left (λ d kv, dict_set kv.1 kv.2 d) kvs d) =
    match dict_get k (reverse kvs) with
    | Some w => Some w
    | None => dict_get k d
    end.
Proof.
  revert d. induction kvs as [|[k' v] kvs IH]; intros d; simpl; [done|].
  rewrite IH, reverse_cons, dict_get_snoc, dict_get_set. simpl.
  destruct (dict_get k (reverse kvs)); [done|].
  by destruct (decide (k = k')).
Qed.

Lemma dict_set_fresh k v d : k ∉ d.*1 → dict_set k v d = d ++ [(k, v)].
Proof.
  induction d as [|[k0 v0] d IH]; simpl; [done|].
  rewrite not_elem_of_cons. intros [Hne Hnin].
  rewrite decide_False by done. by rewrite IH.
Qed.

Lemma dict_fold_fresh kvs d :
  NoDup (d.*1 ++ kvs.*1) →
  fold_left (λ d kv, dict_set kv.1 kv.2 d) kvs d = d ++ kvs.
Proof.
  revert d. induction kvs as [|[k v] kvs IH]; intros d Hnd; simpl.
  - by rewrite app_nil_r.
  - simpl in Hnd. rewrite NoDup_app in Hnd. destruct Hnd as (Hd & Hdisj & Hkvs).
    rewrite dict_set_fresh.
    + rewrite IH; [by rewrite <- app_assoc|].
      rewrite fmap_app. simpl. rewrite <- app_assoc. simpl.
      rewrite NoDup_app. split_and!; [done| |done].
      intros x Hx. by apply Hdisj.
    + intros Hin. apply (Hdisj _ Hin). left.
Qed.

Lemma dict_set_keys k v d : NoDup d.*1 → NoDup (dict_set k v d).*1.
Proof.
  intros Hnd. destruct (decide (k ∈ d.*1)) as [Hin|Hnin].
  - assert ((dict_set k v d).*1 = d.*1) as ->; [|done].
    clear Hnd. induction d as [|[k0 v0] d IH]; simpl.
    + by apply elem_of_nil in Hin.
    + destruct (decide (k = k0)) as [->|Hne]; simpl; [done|].
      simpl in Hin. apply elem_of_cons in Hin as [?|Hin]; [done|].
      f_equal. by apply IH.
  - rewrite dict_set_fresh by done. rewrite fmap_app. simpl.
    rewrite NoDup_app. split_and!; [done| |apply NoDup_singleton].
    intros x Hx ->%list_elem_of_singleton. done.
Qed.

Lemma dict_fold_keys kvs d :
  NoDup d.*1 → NoDup (fold_left (λ d kv, dict_set kv.1 kv.2 d) kvs d).*1.
Proof.
  revert d. induction kvs as [|[k v] kvs IH]; intros d Hnd; simpl; [done|].
  by apply IH, dict_set_keys.
Qed.

(** ** The recursive fold, branch by branch *)

Lemma recursive_parse_unfold strategies element :
  recursive_parse strategies element =
    match strategies !! tag element with
    | Some strategy => strategy_recursive_parse strategy element
    | None =>
        if tags_collide (tag <$> children element) then
          child_elements ←
            loop_records (recursive_parse strategies) (children element) [];
          Ok (keyed_by_self element (VList child_elements))
        else
          child_elements ←
            loop_mapping (recursive_parse strategies) (children element) [];
          Ok (keyed_by_self element (VDict child_elements))
    end.
Proof. by destruct element. Qed.

(** The default branch as one equation: the children's pairs are collected
    (the first failing child aborts the fold), then filed under the
    element's own key as a list of records or as a dictionary. *)
Lemma recursive_parse_default strategies element :
  strategies !! tag element = None →
  recursive_parse strategies element =
    kvs ← child_pairs (recursive_parse strategies) (children element);
    Ok (VDict [(Some (self_key element),
                if tags_collide (tag <$> children element)
                then VList ((λ kv, name_data kv.1 kv.2) <$> kvs)
                else VDict (fold_left (λ d kv, dict_set kv.1 kv.2 d) kvs []))]).
Proof.
  intros Hnone. rewrite recursive_parse_unfold, Hnone.
  destruct (tags_collide (tag <$> children element)).
  - rewrite loop_records_pairs.
    destruct (child_pairs _ _) as [kvs|e]; simpl; [|done].
    by rewrite keyed_by_self_eq.
  - rewrite loop_mapping_pairs.
    destruct (child_pairs _ _) as [kvs|e]; simpl; [|done].
    by rewrite keyed_by_self_eq.
Qed.

(** A child whose fold raises, or yields no pair, makes the default fold
    raise the same error. *)
Lemma recursive_parse_default_raises strategies element e :
  strategies !! tag element = None →
  child_pairs (recursive_parse strategies) (children element) = Raise e →
  recursive_parse strategies element = Raise e.
Proof.
  intros Hnone Hraise. by rewrite recursive_parse_default, Hraise.
Qed.

(** ** Shape of the default fold *)

(** C1, as specified, fails on the code.  With two children of different
    tags and the same [NAME] the inner dictionary keeps the second child's
    value only, so the first child's key does not lead to the first child's
    value; and when a child's fold yields no pair (a strategy returning the
    empty dictionary) the fold returns nothing, it raises. *)
Lemma default_fold_as_specified_fails :
  ¬ default_fold_as_specified ∅ doc_same_name ∧
  ¬ default_fold_as_specified {["B" := EmptyStrategy]} doc_ab.
Proof.
  split.
  - intros (inner & Hrp & Hmap & _).
    vm_compute in Hrp. injection Hrp as <-.
    destruct Hmap as (m & [= <-] & Hchildren).
    { apply (bool_decide_unpack _). vm_compute. exact I. }
    destruct (Hchildren (mkElement 1 "X" {["NAME" := "p"]} None [mkElement 2 "Z" ∅ None []]))
      as (k & v & Hpair & Hget).
    { left. }
    vm_compute in Hpair. injection Hpair as <- <-.
    vm_compute in Hget. discriminate.
  - intros (inner & Hrp & _). vm_compute in Hrp. discriminate.
Qed.

(** C1, amended.  Take an element with no registered strategy.  When the
    children's folds each yield a first (key, value) pair, the default fold
    returns the single-key record [{selfKey: inner}]: with pairwise distinct
    child tags [inner] is the dictionary obtained by assigning the pairs in
    document order (its keys are distinct, every key leads to the value of the
    last child that carries it, and it is the list of pairs itself when the
    children's keys are pairwise distinct); with a repeated child tag [inner]
    is the list of [{name, data}] records, one per child, in document order.
    When a child's fold raises or yields no first pair, the default fold
    raises: the error is that of the first such child in document order. *)
Theorem default_fold_shape strategies element :
  strategies !! tag element = None →
  (∀ kvs,
     Forall2 (λ child kv, child_pair (recursive_parse strategies) child = Ok kv)
             (children element) kvs →
     ∃ inner,
       recursive_parse strategies element
         = Ok (VDict [(Some (self_key element), inner)]) ∧
       (NoDup (tag <$> children element) →
          ∃ m, inner = VDict m ∧
               NoDup m.*1 ∧
               (∀ k, dict_get k m = dict_get k (reverse kvs)) ∧
               (NoDup kvs.*1 → m = kvs)) ∧
       (¬ NoDup (tag <$> children element) →
          ∃ records, inner = VList records ∧
               records = (λ kv, name_data kv.1 kv.2) <$> kvs ∧
               length records = length (children element))) ∧
  (∀ before child after e,
     children element = before ++ child :: after →
     Forall (λ c, ∃ kv, child_pair (recursive_parse strategies) c = Ok kv) before →
     child_pair (recursive_parse strategies) child = Raise e →
     recursive_parse strategies element = Raise e).
Proof.
  intros Hnone. split.
  - intros kvs Hkvs.
    rewrite recursive_parse_default by done.
    pose proof Hkvs as Hlen%Forall2_length.
    apply child_pairs_Ok in Hkvs. rewrite Hkvs. simpl.
    eexists. split; [reflexivity|]. split.
    + intros Hnd%tags_collide_false. rewrite Hnd.
      eexists. split; [reflexivity|]. split_and!.
      * apply dict_fold_keys. constructor.
      * intros k. rewrite dict_get_fold. simpl.
        by destruct (dict_get k (reverse kvs)).
      * intros Hkeys. by rewrite dict_fold_fresh.
    + intros Hdup%tags_collide_true. rewrite Hdup.
      eexists. split_and!; [reflexivity|reflexivity|].
      by rewrite length_fmap.
  - intros before child after e Hchildren Hbefore Hchild.
    rewrite recursive_parse_default by done.
    by rewrite Hchildren, (child_pairs_first_failure _ before child after e).
Qed.

(** The list branch on the first scenario document, the dictionary branch
    on two children that share a [NAME], and a child without a pair. *)
Lemma default_fold_shape_witness :
  (∃ records,
     recursive_parse ∅ doc_items = Ok (VDict [(Some "ROOT", VList records)]) ∧
     records = [name_data (Some "a") (VDict []); name_data (Some "b") (VDict [])] ∧
     length records = 2) ∧
  (∃ m,
     recursive_parse ∅ doc_same_name = Ok (VDict [(Some "R", VDict m)]) ∧
     NoDup m.*1 ∧
     dict_get (Some "p") m = Some (VDict [])) ∧
  recursive_parse {["B" := EmptyStrategy]} doc_ab = Raise IndexError.
Proof.
  split_and!.
  - destruct (default_fold_shape ∅ doc_items) as [Hok _]; [reflexivity|].
    destruct (Hok [(Some "a", VDict []); (Some "b", VDict [])])
      as (inner & Heq & _ & Hlist).
    { repeat constructor. }
    destruct Hlist as (records & -> & Hrecords & Hlen).
    { intros Hnd. vm_compute in Hnd. inversion Hnd as [|? ? Hnin _]. apply Hnin. left. }
    exists records. split_and!; [exact Heq|exact Hrecords|exact Hlen].
  - destruct (default_fold_shape ∅ doc_same_name) as [Hok _]; [reflexivity|].
    destruct (Hok [(Some "p", VDict [(Some "Z", VDict [])]); (Some "p", VDict [])])
      as (inner & Heq & Hmap & _).
    { repeat constructor. }
    destruct Hmap as (m & -> & Hkeys & Hget & _).
    { apply (bool_decide_unpack _). vm_compute. exact I. }
    exists m. split_and!; [exact Heq|exact Hkeys|].
    rewrite Hget. reflexivity.
  - destruct (default_fold_shape {["B" := EmptyStrategy]} doc_ab) as [_ Hraise];
      [reflexivity|].
    apply (Hraise [] (mkElement 1 "B" ∅ None []) []).
    + reflexivity.
    + constructor.
    + reflexivity.
Defined.

(** ** Leaves *)

Lemma recursive_parse_leaf strategies element :
  children element = [] →
  strategies !! tag element = None →
  recursive_parse strategies element = Ok (VDict [(Some (self_key element), VDict [])]).
Proof.
  intros Hleaf Hnone. rewrite recursive_parse_default by done.
  by rewrite Hleaf.
Qed.

(** C4.  An element without children and without a strategy for its tag
    takes the dictionary branch and folds to [{selfKey: {}}]; its text plays
    no part. *)
Theorem leaf_default_fold strategies element :
  children element = [] →
  strategies !! tag element = None →
  tags_collide (tag <$> children element) = false ∧
  recursive_parse strategies element = Ok (VDict [(Some (self_key element), VDict [])]).
Proof.
  intros Hleaf Hnone. split.
  - by rewrite Hleaf.
  - by apply recursive_parse_leaf.
Qed.

Lemma leaf_default_fold_witness :
  children (leaf 1 "ITEM" "a" "1") = [] ∧
  (∅ : gmap string ParsingStrategy) !! tag (leaf 1 "ITEM" "a" "1") = None ∧
  recursive_parse ∅ (leaf 1 "ITEM" "a" "1") = Ok (VDict [(Some "a", VDict [])]).
Proof.
  split; [reflexivity|]. split; [reflexivity|].
  exact (proj2 (leaf_default_fold ∅ (leaf 1 "ITEM" "a" "1") eq_refl eq_refl)).
Defined.

(** C3, as specified, fails on the code: the fold of the leaf
    [<X NAME="p">1</X>] is not [{"p": "1"}], and the second scenario document
    does not convert to [{"ROOT": {"p": "1", "q": "2"}}]. *)
Lemma leaf_text_not_surfaced :
  recursive_parse ∅ (leaf 1 "X" "p" "1") ≠ Ok (VDict [(Some "p", VStr "1")]) ∧
  parse (init doc_xy ∅) ≠
    Ok (VDict [(Some "ROOT", VDict [(Some "p", VStr "1"); (Some "q", VStr "2")])]).
Proof. split; vm_compute; discriminate. Qed.

(** C3, amended.  The default fold of a leaf is a record keyed by the
    element's [NAME] (if present) or tag whose value is the empty dictionary,
    whatever the text of the leaf; in particular the second scenario document
    converts to [{"ROOT": {"p": {}, "q": {}}}]. *)
Theorem leaf_fold_ignores_text :
  (∀ strategies i t a x,
     strategies !! t = None →
     recursive_parse strategies (mkElement i t a x []) =
       Ok (VDict [(Some (self_key (mkElement i t a None [])), VDict [])])) ∧
  parse (init doc_xy ∅) =
    Ok (VDict [(Some "ROOT", VDict [(Some "p", VDict []); (Some "q", VDict [])])]).
Proof.
  split; [|reflexivity].
  intros strategies i t a x Hnone.
  by apply (recursive_parse_leaf strategies (mkElement i t a x [])).
Qed.

Lemma leaf_fold_ignores_text_witness :
  recursive_parse ∅ (leaf 1 "X" "p" "1") = Ok (VDict [(Some "p", VDict [])]).
Proof.
  exact (proj1 leaf_fold_ignores_text ∅ 1%nat "X" {["NAME" := "p"]} (Some "1") eq_refl).
Defined.

(** ** The first scenario document *)

(** C2, as specified, fails on the code: the records do not carry the texts
    ["1"] and ["2"]. *)
Lemma parse_doc_items_not_texts :
  parse (init doc_items ∅) ≠
    Ok (VDict [(Some "ROOT",
                VList [VDict [(Some "name", VStr "a"); (Some "data", VStr "1")];
                       VDict [(Some "name", VStr "b"); (Some "data", VStr "2")]])]).
Proof. vm_compute. discriminate. Qed.

(** C2, amended.  With no strategies the first scenario document converts
    to [{"ROOT": [{"name": "a", "data": {}}, {"name": "b", "data": {}}]}]:
    the list shape, each record carrying the empty dictionary its leaf folds
    to. *)
Theorem parse_doc_items :
  parse (init doc_items ∅) =
    Ok (VDict [(Some "ROOT",
                VList [VDict [(Some "name", VStr "a"); (Some "data", VDict [])];
                       VDict [(Some "name", VStr "b"); (Some "data", VDict [])]])]).
Proof. reflexivity. Qed.

(** ** Strategies *)

Lemma recursive_parse_strategy strategies strategy element :
  strategies !! tag element = Some strategy →
  recursive_parse strategies element = strategy_recursive_parse strategy element.
Proof. intros Hsome. by rewrite recursive_parse_unfold, Hsome. Qed.

Section traced.
Variable strategies : gmap string ParsingStrategy.

Lemma recursive_parse_traced_unfold element :
  recursive_parse_traced strategies element =
    match strategies !! tag element with
    | Some strategy => ([], strategy_recursive_parse strategy element)
    | None =>
        if tags_collide (tag <$> children element) then
          let '(seen, r) :=
            traced_loop (recursive_parse_traced strategies)
              (λ child_elements name data, child_elements ++ [name_data name data])
              (children element) [] in
          (element :: seen,
           child_elements ← r; Ok (keyed_by_self element (VList child_elements)))
        else
          let '(seen, r) :=
            traced_loop (recursive_parse_traced strategies)
              (λ child_elements name data, dict_set name data child_elements)
              (children element) [] in
          (element :: seen,
           child_elements ← r; Ok (keyed_by_self element (VDict child_elements)))
    end.
Proof. by destruct element. Qed.

(** The traced loop computes what the loops of the fold compute. *)
Lemma traced_loop_result {Acc} (add : Acc → Key → Value → Acc) cs acc :
  Forall (λ c, (recursive_parse_traced strategies c).2 = recursive_parse strategies c) cs →
  (traced_loop (recursive_parse_traced strategies) add cs acc).2 =
    kvs ← child_pairs (recursive_parse strategies) cs;
    Ok (fold_left (λ a kv, add a kv.1 kv.2) kvs acc).
Proof.
  intros Hcs. revert acc.
  induction Hcs as [|c cs Hc _ IH]; intros acc; simpl; [done|].
  unfold child_pair. rewrite <- Hc.
  destruct (recursive_parse_traced strategies c) as [seen r]. simpl.
  destruct (r ≫= first_item) as [[name d]|e]; simpl; [|done].
  specialize (IH (add acc name d)).
  destruct (traced_loop _ _ cs _) as [seen' r']. simpl in *. rewrite IH.
  by destruct (child_pairs _ cs).
Qed.

Lemma fold_left_records kvs (acc : list Value) :
  fold_left (λ a kv, a ++ [name_data kv.1 kv.2]) kvs acc =
    acc ++ ((λ kv, name_data kv.1 kv.2) <$> kvs).
Proof.
  revert acc. induction kvs as [|kv kvs IH]; intros acc; simpl.
  - by rewrite app_nil_r.
  - by rewrite IH, <- app_assoc.
Qed.

Lemma recursive_parse_traced_result element :
  (recursive_parse_traced strategies element).2 = recursive_parse strategies element.
Proof.
  induction element as [element IH] using Element_tree_ind.
  rewrite recursive_parse_traced_unfold.
  destruct (strategies !! tag element) as [strategy|] eqn:Hlookup.
  - by rewrite (recursive_parse_strategy _ strategy).
  - rewrite recursive_parse_default by done.
    destruct (tags_collide (tag <$> children element)).
    + pose proof (traced_loop_result
        (λ child_elements name data, child_elements ++ [name_data name data])
        (children element) [] IH) as Hloop.
      destruct (traced_loop _ _ _ _) as [seen r]. simpl in *. rewrite Hloop.
      destruct (child_pairs _ _) as [kvs|e]; simpl; [|done].
      by rewrite keyed_by_self_eq, fold_left_records.
    + pose proof (traced_loop_result
        (λ child_elements name data, dict_set name data child_elements)
        (children element) [] IH) as Hloop.
      destruct (traced_loop _ _ _ _) as [seen r]. simpl in *. rewrite Hloop.
      destruct (child_pairs _ _) as [kvs|e]; simpl; [|done].
      by rewrite keyed_by_self_eq.
Qed.

Lemma traced_loop_seen {Acc} (add : Acc → Key → Value → Acc) (P : Element → Prop) cs acc :
  Forall (λ c, ∀ x, x ∈ (recursive_parse_traced strategies c).1 → P x) cs →
  ∀ x, x ∈ (traced_loop (recursive_parse_traced strategies) add cs acc).1 → P x.
Proof.
  intros Hcs. revert acc.
  induction Hcs as [|c cs Hc _ IH]; intros acc x; simpl.
  - by intros ?%elem_of_nil.
  - destruct (recursive_parse_traced strategies c) as [seen r]. simpl in Hc.
    destruct (r ≫= first_item) as [[name d]|e]; simpl; [|by apply Hc].
    specialize (IH (add acc name d) x).
    destruct (traced_loop _ _ cs _) as [seen' r']. simpl in *.
    intros [?|?]%elem_of_app; auto.
Qed.

(** The default recursion is entered on elements without a strategy
    only. *)
Lemma recursive_parse_traced_seen element x :
  x ∈ (recursive_parse_traced strategies element).1 → strategies !! tag x = None.
Proof.
  revert x. induction element as [element IH] using Element_tree_ind. intros x.
  rewrite recursive_parse_traced_unfold.
  destruct (strategies !! tag element) as [strategy|] eqn:Hlookup; simpl.
  - by intros ?%elem_of_nil.
  - destruct (tags_collide (tag <$> children element)).
    + pose proof (traced_loop_seen
        (λ child_elements name data, child_elements ++ [name_data name data])
        _ (children element) [] IH x) as Hloop.
      destruct (traced_loop _ _ _ _) as [seen r]. simpl in *.
      intros [->|?]%elem_of_cons; auto.
    + pose proof (traced_loop_seen
        (λ child_elements name data, dict_set name data child_elements)
        _ (children element) [] IH x) as Hloop.
      destruct (traced_loop _ _ _ _) as [seen r]. simpl in *.
      intros [->|?]%elem_of_cons; auto.
Qed.

(** It is entered on every element without a strategy that the fold is
    called on. *)
Lemma recursive_parse_traced_enters element :
  strategies !! tag element = None →
  element ∈ (recursive_parse_traced strategies element).1.
Proof.
  intros Hnone. rewrite recursive_parse_traced_unfold, Hnone.
  destruct (tags_collide _); destruct (traced_loop _ _ _ _); left.
Qed.
End traced.

(** C5.  An element whose tag has a registered strategy folds to exactly
    what that strategy returns for it, and in no run of the fold, started on
    any element [top], is the default recursion entered on an element of that
    tag, however deep. *)
Theorem strategy_precedence strategies strategy element :
  strategies !! tag element = Some strategy →
  recursive_parse strategies element = strategy_recursive_parse strategy element ∧
  (recursive_parse_traced strategies element).1 = [] ∧
  ∀ top x, x ∈ (recursive_parse_traced strategies top).1 → tag x ≠ tag element.
Proof.
  intros Hsome. split_and!.
  - by apply recursive_parse_strategy.
  - by rewrite recursive_parse_traced_unfold, Hsome.
  - intros top x Hseen%recursive_parse_traced_seen Htag.
    rewrite Htag in Hseen. congruence.
Qed.

Lemma strategy_precedence_witness :
  ({["ROOT" := AttributeParsingStrategy]} : gmap string ParsingStrategy) !! tag doc_xy
    = Some AttributeParsingStrategy ∧
  recursive_parse {["ROOT" := AttributeParsingStrategy]} doc_xy =
    attribute_recursive_parse doc_xy.
Proof.
  split; [reflexivity|].
  exact (proj1 (strategy_precedence {["ROOT" := AttributeParsingStrategy]}
                  AttributeParsingStrategy doc_xy eq_refl)).
Defined.

(** C10.  When every registered strategy is the attribute strategy, the fold
    of every element is a record with exactly one key; so the first item of
    every child's fold, which both loops of the default recursion take, is
    there. *)
Theorem attribute_strategies_single_key strategies :
  (∀ t strategy, strategies !! t = Some strategy → strategy = AttributeParsingStrategy) →
  ∀ element,
    (∃ key inner, recursive_parse strategies element = Ok (VDict [(key, inner)])) ∧
    (∀ child, child ∈ children element →
       ∃ kv, child_pair (recursive_parse strategies) child = Ok kv).
Proof.
  intros Hattr.
  assert (∀ element,
            ∃ key inner, recursive_parse strategies element = Ok (VDict [(key, inner)]))
    as Hsingle.
  { induction element as [element IH] using Element_tree_ind.
    destruct (strategies !! tag element) as [strategy|] eqn:Hlookup.
    - rewrite (recursive_parse_strategy _ strategy) by done.
      rewrite (Hattr _ _ Hlookup). by eexists _, _.
    - rewrite recursive_parse_default by done.
      assert (∃ kvs, child_pairs (recursive_parse strategies) (children element) = Ok kvs)
        as [kvs ->].
      { induction IH as [|c cs (key & inner & Hc) _ (kvs & IHcs)]; simpl.
        - by eexists.
        - unfold child_pair. rewrite Hc. simpl. rewrite IHcs. by eexists. }
      by eexists _, _. }
  intros element. split; [done|].
  intros child _. destruct (Hsingle child) as (key & inner & Hchild).
  unfold child_pair. rewrite Hchild. by eexists.
Qed.

Lemma attribute_strategies_single_key_witness :
  (∃ key inner,
     recursive_parse {["ATTRIBUTES" := AttributeParsingStrategy]} doc_items =
       Ok (VDict [(key, inner)])) ∧
  (∀ child, child ∈ children doc_items →
     ∃ kv, child_pair (recursive_parse {["ATTRIBUTES" := AttributeParsingStrategy]}) child
           = Ok kv).
Proof.
  apply (attribute_strategies_single_key {["ATTRIBUTES" := AttributeParsingStrategy]}).
  intros t strategy Hlookup.
  apply lookup_singleton_Some in Hlookup as [_ <-]. reflexivity.
Defined.

(** ** The tree and its identities *)

Lemma iter_unfold e : iter e = e :: (children e ≫= iter).
Proof. by destruct e. Qed.

Lemma elem_of_iter_self e : e ∈ iter e.
Proof. rewrite iter_unfold. left. Qed.

(** A child of an element of the tree is a proper descendant of the root. *)
Lemma elem_of_iter_child r p c :
  p ∈ iter r → c ∈ children p → c ∈ children r ≫= iter.
Proof.
  revert p c. induction r as [r IH] using Element_tree_ind. intros p c.
  rewrite iter_unfold. intros [->|Hp]%elem_of_cons Hc.
  - apply list_elem_of_bind. exists c. split; [apply elem_of_iter_self|done].
  - apply list_elem_of_bind in Hp as (y & Hp & Hy).
    apply list_elem_of_bind. exists y. split; [|done].
    rewrite iter_unfold. right.
    rewrite Forall_forall in IH. by apply (IH y Hy p c).
Qed.

Lemma below_elem_of_iter r e n : below r e n → e ∈ iter r.
Proof.
  induction 1 as [|p e n _ IH Hc].
  - apply elem_of_iter_self.
  - rewrite iter_unfold. right. by apply (elem_of_iter_child r p e).
Qed.

Lemma below_0 r e : below r e 0 → e = r.
Proof. by inversion 1. Qed.

Lemma below_S r e n : below r e (S n) → ∃ p, below r p n ∧ e ∈ children p.
Proof. inversion 1; subst. by eexists. Qed.

Section unique.
(** Subtrees of distinct children share no identity. *)
Lemma unique_ids_siblings cs x y a b :
  NoDup (eid <$> (cs ≫= iter)) →
  x ∈ cs → y ∈ cs → a ∈ iter x → b ∈ iter y → eid a = eid b → x = y.
Proof.
  induction cs as [|z cs IH]; [by intros _ ?%elem_of_nil|].
  rewrite bind_cons, fmap_app, NoDup_app. intros (_ & Hdisj & Hrest) Hx Hy Ha Hb Heq.
  apply elem_of_cons in Hx as [->|Hx]; apply elem_of_cons in Hy as [->|Hy].
  - done.
  - exfalso. apply (Hdisj (eid a)).
    + by apply list_elem_of_fmap_2.
    + rewrite Heq. apply list_elem_of_fmap_2, list_elem_of_bind. by exists y.
  - exfalso. apply (Hdisj (eid b)).
    + by apply list_elem_of_fmap_2.
    + rewrite <- Heq. apply list_elem_of_fmap_2, list_elem_of_bind. by exists x.
  - by apply (IH Hrest Hx Hy Ha Hb).
Qed.

Lemma unique_ids_child_list cs x :
  NoDup (eid <$> (cs ≫= iter)) → x ∈ cs → unique_ids x.
Proof.
  induction cs as [|z cs IH]; [by intros _ ?%elem_of_nil|].
  rewrite bind_cons, fmap_app, NoDup_app. intros (Hz & _ & Hrest).
  intros [->|Hx]%elem_of_cons; [done|]. by apply IH.
Qed.

Lemma unique_ids_children r :
  unique_ids r → NoDup (eid <$> (children r ≫= iter)).
Proof.
  unfold unique_ids. rewrite iter_unfold, fmap_cons. by intros [_ ?]%NoDup_cons.
Qed.

(** A proper descendant is not the root. *)
Lemma unique_ids_descendant r c :
  unique_ids r → c ∈ children r ≫= iter → eid c ≠ eid r.
Proof.
  unfold unique_ids. rewrite iter_unfold, fmap_cons.
  intros [Hfresh _]%NoDup_cons Hc Heq. apply Hfresh. rewrite <- Heq.
  by apply list_elem_of_fmap_2.
Qed.

(** An element has one parent. *)
Lemma unique_parent r p1 p2 c1 c2 :
  unique_ids r →
  p1 ∈ iter r → p2 ∈ iter r →
  c1 ∈ children p1 → c2 ∈ children p2 →
  eid c1 = eid c2 → p1 = p2.
Proof.
  revert p1 p2 c1 c2. induction r as [r IH] using Element_tree_ind.
  intros p1 p2 c1 c2 Hids Hp1 Hp2 Hc1 Hc2 Heq.
  pose proof (unique_ids_children r Hids) as Hcs.
  rewrite Forall_forall in IH.
  rewrite iter_unfold in Hp1, Hp2.
  apply elem_of_cons in Hp1 as [->|Hp1]; apply elem_of_cons in Hp2 as [->|Hp2].
  - done.
  - exfalso. apply list_elem_of_bind in Hp2 as (y & Hp2 & Hy).
    pose proof (elem_of_iter_child y p2 c2 Hp2 Hc2) as Hc2'.
    assert (c1 = y) as ->.
    { apply (unique_ids_siblings (children r) c1 y c1 c2); try done.
      - apply elem_of_iter_self.
      - rewrite iter_unfold. by right. }
    by apply (unique_ids_descendant y c2 (unique_ids_child_list _ _ Hcs Hy)).
  - exfalso. apply list_elem_of_bind in Hp1 as (x & Hp1 & Hx).
    pose proof (elem_of_iter_child x p1 c1 Hp1 Hc1) as Hc1'.
    assert (c2 = x) as ->.
    { apply (unique_ids_siblings (children r) c2 x c2 c1); try done.
      - apply elem_of_iter_self.
      - rewrite iter_unfold. by right. }
    by apply (unique_ids_descendant x c1 (unique_ids_child_list _ _ Hcs Hx)).
  - apply list_elem_of_bind in Hp1 as (x & Hp1 & Hx).
    apply list_elem_of_bind in Hp2 as (y & Hp2 & Hy).
    assert (x = y) as <-.
    { apply (unique_ids_siblings (children r) x y c1 c2); try done.
      - rewrite iter_unfold. right. by apply (elem_of_iter_child x p1).
      - rewrite iter_unfold. right. by apply (elem_of_iter_child y p2). }
    apply (IH x Hx p1 p2 c1 c2); try done.
    by apply (unique_ids_child_list (children r)).
Qed.
End unique.

(** ** Navigation *)

Lemma py_index_elem_of {A} (l : list A) i x : py_index l i = Ok x → x ∈ l.
Proof.
  unfold py_index. destruct (_ && _); [|done].
  destruct (l !! _) as [y|] eqn:Hy; simpl; [|done].
  intros [= <-]. by apply list_elem_of_lookup_2 in Hy.
Qed.

(** From zero on, [l[i]] is the [i]-th item, and raises past the end. *)
Lemma py_index_nonneg {A} (l : list A) i :
  (0 ≤ i)%Z →
  py_index l i = from_option Ok (Raise IndexError) (l !! Z.to_nat i).
Proof.
  intros Hi. unfold py_index.
  destruct (Z.ltb_spec i 0) as [?|_]; [lia|].
  destruct (Z.leb_spec 0 i) as [_|?]; [|lia]. simpl.
  destruct (Z.ltb_spec i (Z.of_nat (length l))) as [?|Hge]; [done|].
  rewrite lookup_ge_None_2; [done|lia].
Qed.

Lemma children_with_info_subseteq child_info cur child :
  child ∈ children_with_info child_info cur → child ∈ children cur.
Proof.
  unfold children_with_info.
  destruct (re_match child_info) as [[t name]|];
    by intros [_ ?]%list_elem_of_filter.
Qed.

(** What a successful [go_to_child] has done. *)
Lemma go_to_child_Ok child_info occurrence self :
  (go_to_child child_info occurrence self).1 = Ok tt →
  ∃ child,
    child ∈ children_with_info child_info (current_element self) ∧
    py_index (children_with_info child_info (current_element self)) occurrence = Ok child ∧
    (go_to_child child_info occurrence self).2 =
      set_current_path (current_path self ++ [child_info])
        (set_current_element child self).
Proof.
  unfold go_to_child. destruct (_ <? _)%Z; [|done].
  destruct (py_index _ _) as [child|e] eqn:Hindex; [|done].
  intros _. exists child. split_and!; [|done..].
  by apply py_index_elem_of in Hindex.
Qed.

(** A raising [go_to_child] has touched nothing. *)
Lemma go_to_child_raises child_info occurrence self :
  raises (go_to_child child_info occurrence self).1 →
  (go_to_child child_info occurrence self).2 = self.
Proof.
  unfold go_to_child. destruct (_ <? _)%Z; [|done].
  by destruct (py_index _ _).
Qed.

Lemma same_object_true a b : same_object a b = true ↔ eid a = eid b.
Proof. unfold same_object. apply bool_decide_eq_true. Qed.

Lemma has_child_true parent cur :
  has_child parent cur = true ↔ ∃ c, c ∈ children parent ∧ eid cur = eid c.
Proof.
  unfold has_child. rewrite existsb_exists.
  split; intros (c & Hc & Hid); exists c.
  - by rewrite list_elem_of_In, <- same_object_true.
  - by rewrite <- list_elem_of_In, same_object_true.
Qed.

(** From a child, [go_to_parent] finds the parent. *)
Lemma go_to_parent_from_child self p n :
  unique_ids (root self) →
  below (root self) p n →
  current_element self ∈ children p →
  go_to_parent self =
    match pop (current_path self) with
    | Some path => (Ok tt, set_current_path path (set_current_element p self))
    | None => (Raise IndexError, set_current_element p self)
    end.
Proof.
  intros Hids Hp Hcur. unfold go_to_parent.
  pose proof (below_elem_of_iter _ _ _ Hp) as Hp_in.
  pose proof (elem_of_iter_child _ _ _ Hp_in Hcur) as Hdesc.
  destruct (same_object (current_element self) (root self)) eqn:Hsame.
  { apply same_object_true in Hsame.
    by apply (unique_ids_descendant _ _ Hids) in Hdesc. }
  destruct (List.find _ _) as [q|] eqn:Hfind.
  - apply find_some in Hfind as [Hq Hhas].
    apply list_elem_of_In in Hq. apply has_child_true in Hhas as (c & Hc & Hid).
    assert (q = p) as ->; [|done].
    by apply (unique_parent (root self) q p c (current_element self)).
  - exfalso. pose proof (find_none _ _ Hfind p) as Hnone. simpl in Hnone.
    rewrite <- list_elem_of_In in Hnone. specialize (Hnone Hp_in).
    assert (has_child p (current_element self) = true) as Htrue; [|congruence].
    apply has_child_true. by exists (current_element self).
Qed.

(** At the root, and only there, the cursor has the root's identity. *)
Lemma consistent_at_root self :
  consistent self →
  (same_object (current_element self) (root self) = true
   ↔ current_element self = root self).
Proof.
  intros [Hids (n & Hbelow & _)]. rewrite same_object_true. split; [|by intros ->].
  intros Hid. destruct n as [|n]; [by apply below_0 in Hbelow|].
  apply below_S in Hbelow as (p & Hp & Hcur). exfalso.
  apply (unique_ids_descendant _ (current_element self) Hids); [|done].
  apply (elem_of_iter_child _ p); [|done]. by apply (below_elem_of_iter _ _ n).
Qed.

Lemma go_to_parent_at_root self :
  same_object (current_element self) (root self) = true →
  go_to_parent self = (Raise ValueError, self).
Proof. intros Hsame. unfold go_to_parent. by rewrite Hsame. Qed.

(** Below the root, [go_to_parent] succeeds: the cursor moves one level up
    and the path stack loses its last entry. *)
Lemma go_to_parent_below_root self :
  consistent self →
  current_element self ≠ root self →
  ∃ p n,
    below (root self) p n ∧
    current_element self ∈ children p ∧
    length (current_path self) = S (S n) ∧
    go_to_parent self =
      (Ok tt, set_current_path (removelast (current_path self))
                (set_current_element p self)).
Proof.
  intros [Hids (n & Hbelow & Hlen)] Hne.
  destruct n as [|n]; [by apply below_0 in Hbelow|].
  pose proof Hbelow as (p & Hp & Hcur)%below_S.
  exists p, n. split_and!; [done..|].
  rewrite (go_to_parent_from_child self p n) by done.
  by destruct (current_path self).
Qed.

(** ** The invariant of the parser object *)

Lemma init_consistent parsed_root strategies :
  unique_ids parsed_root → consistent (init parsed_root strategies).
Proof.
  intros Hids. split; [done|]. exists 0. split; [constructor|done].
Qed.

Lemma call_consistent self self' :
  consistent self → call self self' → consistent self'.
Proof.
  intros Hself Hcall. destruct Hcall as [ci occ self|self|path key self|strategies self].
  - destruct (go_to_child ci occ self).1 as [[]|e] eqn:Hout.
    + apply go_to_child_Ok in Hout as (child & Hchild & _ & ->).
      destruct Hself as [Hids (n & Hbelow & Hlen)].
      split; [done|]. exists (S n). simpl. split.
      * apply (below_child _ (current_element self)); [done|].
        by apply children_with_info_subseteq in Hchild.
      * rewrite length_app. simpl. lia.
    + rewrite go_to_child_raises; [done|]. by rewrite Hout.
  - destruct (same_object (current_element self) (root self)) eqn:Hsame.
    + by rewrite go_to_parent_at_root.
    + assert (current_element self ≠ root self) as Hne.
      { intros Heq. apply (consistent_at_root self Hself) in Heq. congruence. }
      destruct (go_to_parent_below_root self Hself Hne) as (p & n & Hp & _ & Hlen & ->).
      destruct Hself as [Hids _].
      split; [done|]. exists n. simpl. split; [done|].
      rewrite removelast_firstn_len, length_take. lia.
  - unfold add_to_data. destruct (resolve _ _); [|done].
    destruct Hself as [Hids Hcur]. by split.
  - destruct Hself as [Hids Hcur]. by split.
Qed.

(** Every state of a parser object built on a parsed tree is consistent. *)
Lemma reachable_consistent parsed_root self :
  unique_ids parsed_root → reachable parsed_root self → consistent self.
Proof.
  intros Hids [strategies Hcalls].
  pose proof (init_consistent parsed_root strategies Hids) as Hinit.
  induction Hcalls as [|s1 s2 s3 Hcall _ IH]; [done|].
  by apply IH, (call_consistent s1).
Qed.

(** C6.  In a consistent state, a successful [go_to_child] followed at once
    by [go_to_parent] succeeds and gives back the element snapshot and the
    path string from before the two calls; the parser object as a whole is
    what it was. *)
Theorem navigation_round_trip self child_info occurrence :
  consistent self →
  (go_to_child child_info occurrence self).1 = Ok tt →
  (go_to_parent (go_to_child child_info occurrence self).2).1 = Ok tt ∧
  get_current_info (go_to_parent (go_to_child child_info occurrence self).2).2
    = get_current_info self ∧
  get_current_path (go_to_parent (go_to_child child_info occurrence self).2).2
    = get_current_path self ∧
  (go_to_parent (go_to_child child_info occurrence self).2).2 = self.
Proof.
  intros [Hids (n & Hbelow & Hlen)] Hok.
  apply go_to_child_Ok in Hok as (child & Hchild & _ & ->).
  apply children_with_info_subseteq in Hchild.
  rewrite (go_to_parent_from_child _ (current_element self) n) by done.
  assert (pop (current_path self ++ [child_info]) = Some (current_path self)) as Hpop.
  { unfold pop. destruct (current_path self ++ [child_info]) eqn:Happ.
    - by apply app_nil in Happ as [_ ?].
    - by rewrite <- Happ, removelast_last. }
  simpl. rewrite Hpop. by destruct self.
Qed.

Lemma doc_items_unique_ids : unique_ids doc_items.
Proof. apply (bool_decide_unpack _). vm_compute. exact I. Defined.

Lemma navigation_round_trip_witness :
  (go_to_child "ITEM[a]" 0 (init doc_items ∅)).1 = Ok tt ∧
  get_current_info (go_to_child "ITEM[a]" 0 (init doc_items ∅)).2
    = ("ITEM", Some "a", Some "1") ∧
  (go_to_parent (go_to_child "ITEM[a]" 0 (init doc_items ∅)).2).1 = Ok tt ∧
  get_current_info (go_to_parent (go_to_child "ITEM[a]" 0 (init doc_items ∅)).2).2
    = get_current_info (init doc_items ∅) ∧
  get_current_path (go_to_parent (go_to_child "ITEM[a]" 0 (init doc_items ∅)).2).2
    = get_current_path (init doc_items ∅) ∧
  (go_to_parent (go_to_child "ITEM[a]" 0 (init doc_items ∅)).2).2 = init doc_items ∅.
Proof.
  split; [reflexivity|]. split; [reflexivity|].
  apply (navigation_round_trip (init doc_items ∅) "ITEM[a]" 0).
  - apply init_consistent, doc_items_unique_ids.
  - reflexivity.
Defined.

(** C8.  In a consistent state [go_to_parent] raises exactly when the
    cursor is the root, and a raising [go_to_parent] or [go_to_child] leaves
    the parser object, cursor and path stack included, as it was. *)
Theorem navigation_errors self :
  consistent self →
  (raises (go_to_parent self).1 ↔ current_element self = root self) ∧
  (raises (go_to_parent self).1 →
     current_element (go_to_parent self).2 = current_element self ∧
     current_path (go_to_parent self).2 = current_path self ∧
     (go_to_parent self).2 = self) ∧
  (∀ child_info occurrence,
     raises (go_to_child child_info occurrence self).1 →
     current_element (go_to_child child_info occurrence self).2 = current_element self ∧
     current_path (go_to_child child_info occurrence self).2 = current_path self ∧
     (go_to_child child_info occurrence self).2 = self).
Proof.
  intros Hself.
  assert (raises (go_to_parent self).1 ↔ current_element self = root self) as Hiff.
  { split.
    - intros Hraise.
      destruct (same_object (current_element self) (root self)) eqn:Hsame;
        [by apply consistent_at_root|].
      assert (current_element self ≠ root self) as Hne.
      { intros Heq. apply (consistent_at_root self Hself) in Heq. congruence. }
      destruct (go_to_parent_below_root self Hself Hne) as (p & n & _ & _ & _ & Hgo).
      by rewrite Hgo in Hraise.
    - intros Heq%(consistent_at_root self Hself).
      by rewrite go_to_parent_at_root. }
  split_and!; [done| |].
  - intros Heq%Hiff%(consistent_at_root self Hself).
    by rewrite go_to_parent_at_root.
  - intros child_info occurrence Hraise.
    by rewrite go_to_child_raises.
Qed.

Lemma navigation_errors_witness :
  raises (go_to_parent (init doc_items ∅)).1 ∧
  (go_to_parent (init doc_items ∅)).2 = init doc_items ∅ ∧
  raises (go_to_child "MISSING" 0 (init doc_items ∅)).1 ∧
  (go_to_child "MISSING" 0 (init doc_items ∅)).2 = init doc_items ∅.
Proof.
  pose proof (navigation_errors (init doc_items ∅)
                (init_consistent doc_items ∅ doc_items_unique_ids))
    as (Hiff & Hparent & Hchild).
  split; [by apply Hiff|]. split; [by apply Hparent, Hiff|].
  split; [exact I|]. by apply (Hchild "MISSING" 0%Z).
Defined.

(** From occurrence zero on, [go_to_child] does what its guard says: past
    the matches it raises the [ValueError], otherwise it moves to the match of
    that rank and pushes the spec. *)
Lemma go_to_child_nonneg child_info occurrence self :
  (0 ≤ occurrence)%Z →
  go_to_child child_info occurrence self =
    match children_with_info child_info (current_element self) !! Z.to_nat occurrence with
    | Some child =>
        (Ok tt, set_current_path (current_path self ++ [child_info])
                  (set_current_element child self))
    | None => (Raise ValueError, self)
    end.
Proof.
  intros Hocc. unfold go_to_child.
  destruct (Z.ltb_spec occurrence
              (Z.of_nat (length (children_with_info child_info (current_element self)))))
    as [Hlt|Hge].
  - rewrite py_index_nonneg by done.
    destruct (_ !! _) as [child|] eqn:Hlookup; [done|].
    apply lookup_ge_None in Hlookup. lia.
  - rewrite lookup_ge_None_2; [done|lia].
Qed.

(** C9, on the code.  Two children of the root match ["ITEM"].  Occurrence
    [-1] is outside the ranks 0 and 1, yet the call does not raise: it moves
    the cursor to the last match and pushes the spec.  Occurrence [-3] raises,
    but the [IndexError] of the list access, not the [ValueError] of the
    guard. *)
Lemma go_to_child_negative_occurrence :
  length (children_with_info "ITEM" (current_element (init doc_items ∅))) = 2 ∧
  (go_to_child "ITEM" (-1) (init doc_items ∅)).1 = Ok tt ∧
  get_current_info (go_to_child "ITEM" (-1) (init doc_items ∅)).2
    = ("ITEM", Some "b", Some "2") ∧
  get_current_path (go_to_child "ITEM" (-1) (init doc_items ∅)).2 = "ROOT/ITEM" ∧
  go_to_child "ITEM" (-3) (init doc_items ∅) = (Raise IndexError, init doc_items ∅).
Proof. repeat split. Qed.

(** ** Flat extraction *)

(** [add_to_data] starts from the root wherever the cursor is. *)
Lemma add_to_data_from_root path key self e :
  (add_to_data path key (set_current_element e self)).1 = (add_to_data path key self).1 ∧
  data (add_to_data path key (set_current_element e self)).2
    = data (add_to_data path key self).2.
Proof. unfold add_to_data. simpl. by destruct (resolve _ _). Qed.

(** C7, as specified, fails on the code: with the leading slash the first
    segment after the split is ["ROOT"], which is looked up among the
    children of the root. *)
Lemma add_to_data_leading_slash :
  ¬ ((add_to_data "/ROOT/ITEM[a]" None (init doc_items ∅)).1 = Ok tt ∧
     get_data (add_to_data "/ROOT/ITEM[a]" None (init doc_items ∅)).2 !! Some "a"
       = Some (Some "1")).
Proof. intros [Hok _]. vm_compute in Hok. discriminate. Qed.

(** C7, amended.  On the first scenario document, [add_to_data] with the
    path as [get_current_path] writes it, ["ROOT/ITEM[a]"], succeeds and
    stores ["1"] under ["a"]; with a slash in front the call raises and the
    parser object stays as it was. *)
Theorem add_to_data_doc_items :
  get_current_path (go_to_child "ITEM[a]" 0 (init doc_items ∅)).2 = "ROOT/ITEM[a]" ∧
  (add_to_data "ROOT/ITEM[a]" None (init doc_items ∅)).1 = Ok tt ∧
  get_data (add_to_data "ROOT/ITEM[a]" None (init doc_items ∅)).2 !! Some "a"
    = Some (Some "1") ∧
  add_to_data "/ROOT/ITEM[a]" None (init doc_items ∅)
    = (Raise ValueError, init doc_items ∅).
Proof. repeat split. Qed.

(** ** The pattern, tried on strings *)

Example re_match_tag_name : re_match "ITEM[a]" = Some ("ITEM", "a").
Proof. reflexivity. Qed.

Example re_match_bare_tag : re_match "ROOT" = None.
Proof. reflexivity. Qed.

Example re_match_greedy : re_match "a[b][c]" = Some ("a[b]", "c").
Proof. reflexivity. Qed.

Example re_match_trailing : re_match "x[y]z]w[" = Some ("x", "y]z").
Proof. reflexivity. Qed.

Example split_leading_slash : split "/" "/ROOT/ITEM[a]" = [""; "ROOT"; "ITEM[a]"].
Proof. reflexivity. Qed.

(** * Further properties of the code *)

(** ** The pattern of the path segments *)

Lemma occurs_cons c c' s : occurs c (String c' s) = Ascii.eqb c c' || occurs c s.
Proof. reflexivity. Qed.

Lemma occurs_tail c c' s : occurs c (String c' s) = false → occurs c s = false.
Proof. rewrite occurs_cons. by intros [_ ?]%orb_false_iff. Qed.

Lemma dot_of_occurs c s : occurs "010" (String c s) = false → dot c = true.
Proof.
  rewrite occurs_cons. intros [Hc _]%orb_false_iff. unfold dot.
  rewrite Ascii.eqb_sym. by rewrite Hc.
Qed.

Lemma append_cons c s s' : String c s +:+ s' = String c (s +:+ s').
Proof. reflexivity. Qed.

Section pattern.
Context {A : Type}.
Variable k : string → option A.

Lemma dot_star_cons c s :
  dot_star k (String c s) =
    if dot c then
      match dot_star k s with
      | Some (g, r) => Some (String c g, r)
      | None => pair "" <$> k (String c s)
      end
    else pair "" <$> k (String c s).
Proof. reflexivity. Qed.

(** What a greedy group has matched is a prefix, and the rest of the
    pattern has matched what follows it. *)
Lemma dot_star_Some s g r :
  dot_star k s = Some (g, r) →
  ∃ s', s = g +:+ s' ∧ k s' = Some r ∧ occurs "010" g = false.
Proof.
  revert g r. induction s as [|c s IH]; intros g r; simpl.
  - destruct (k "") as [r'|] eqn:Hk; simpl; [|done].
    intros [= <- <-]. by exists "".
  - assert (pair "" <$> k (String c s) = Some (g, r) →
            ∃ s', String c s = g +:+ s' ∧ k s' = Some r ∧ occurs "010" g = false)
      as Hshort.
    { destruct (k (String c s)) as [r'|] eqn:Hk; simpl; [|done].
      intros [= <- <-]. by exists (String c s). }
    destruct (dot c) eqn:Hdot; [|done].
    destruct (dot_star k s) as [[g' r']|] eqn:Hrec; [|done].
    intros [= <- <-]. destruct (IH g' r' eq_refl) as (s' & -> & Hk & Hg).
    exists s'. split_and!; [done..|]. rewrite occurs_cons, Hg.
    unfold dot in Hdot. apply negb_true_iff in Hdot.
    rewrite Ascii.eqb_sym in Hdot. by rewrite Hdot.
Qed.
End pattern.

Lemma lit_Some {A} (k : string → option A) c s r :
  lit k c s = Some r → ∃ s', s = String c s' ∧ k s' = Some r.
Proof.
  destruct s as [|c' s]; simpl; [done|].
  destruct (Ascii.eqb c c') eqn:Heq; [|done].
  apply Ascii.eqb_eq in Heq as <-. intros Hk. by exists s.
Qed.

(** X1.  When the pattern matches, the string starts with the tag, an
    opening bracket, the name and a closing bracket; neither group holds a
    newline, and what follows the closing bracket is not looked at. *)
Theorem re_match_Some s t name :
  re_match s = Some (t, name) →
  ∃ rest, s = t +:+ "[" +:+ name +:+ "]" +:+ rest ∧
          occurs "010" t = false ∧ occurs "010" name = false.
Proof.
  unfold re_match.
  destruct (dot_star _ s) as [[t' [name' []]]|] eqn:Hmatch; [|done].
  intros [= <- <-].
  apply dot_star_Some in Hmatch as (s1 & -> & Hlit & Ht).
  apply lit_Some in Hlit as (s2 & -> & Hinner).
  apply dot_star_Some in Hinner as (s3 & -> & Hlit & Hname).
  apply lit_Some in Hlit as (rest & -> & _).
  by exists rest.
Qed.

Lemma re_match_Some_witness :
  ∃ rest, "a[b]c" = "a" +:+ "[" +:+ "b" +:+ "]" +:+ rest ∧
          occurs "010" "a" = false ∧ occurs "010" "b" = false.
Proof. apply (re_match_Some "a[b]c" "a" "b"). reflexivity. Defined.

(** Without an opening bracket nothing matches. *)
Lemma dot_star_no_bracket {A} (k : string → option A) s :
  occurs "[" s = false → dot_star (lit k "[") s = None.
Proof.
  induction s as [|c s IH]; [done|].
  intros Hs. pose proof Hs as Hc. rewrite occurs_cons in Hc.
  apply orb_false_iff in Hc as [Hc Htail].
  rewrite dot_star_cons, (IH Htail). unfold lit. rewrite Hc. by destruct (dot c).
Qed.

(** X2.  A string without an opening bracket, such as a bare tag, does not
    match the pattern. *)
Theorem re_match_no_bracket s : occurs "[" s = false → re_match s = None.
Proof. intros Hs. unfold re_match. by rewrite dot_star_no_bracket. Qed.

Lemma re_match_no_bracket_witness : re_match "ROOT" = None.
Proof. apply re_match_no_bracket. reflexivity. Defined.

Lemma dot_star_name name :
  occurs "010" name = false →
  dot_star (lit (λ _, Some tt) "]") (name +:+ "]") = Some (name, tt).
Proof.
  induction name as [|c name IH]; [done|].
  intros Hname. rewrite append_cons, dot_star_cons.
  rewrite (dot_of_occurs c name Hname), (IH (occurs_tail _ _ _ Hname)). done.
Qed.

(** X3.  The spec written as tag, opening bracket, name, closing bracket is
    read back as that tag and that name, when neither holds a newline and the
    name holds no bracket. *)
Theorem re_match_round_trip t name :
  occurs "010" t = false →
  occurs "010" name = false →
  occurs "[" name = false →
  occurs "]" name = false →
  re_match (t +:+ "[" +:+ name +:+ "]") = Some (t, name).
Proof.
  intros Ht Hnl Hopen Hclose. unfold re_match.
  assert (dot_star (lit (dot_star (lit (λ _, Some tt) "]")) "[")
            (t +:+ "[" +:+ name +:+ "]") = Some (t, (name, tt))) as ->; [|done].
  induction t as [|c t IH].
  - change ("" +:+ "[" +:+ name +:+ "]") with (String "[" (name +:+ "]")).
    rewrite dot_star_cons, dot_star_no_bracket.
    + change (dot "[") with true. cbv iota.
      change (lit ?k "[" (String "[" ?s)) with (k s).
      by rewrite dot_star_name.
    + clear Hnl Hclose. induction name as [|c name IH]; [done|].
      rewrite append_cons, occurs_cons. rewrite occurs_cons in Hopen.
      apply orb_false_iff in Hopen as [-> Hopen]. by apply IH.
  - rewrite append_cons, dot_star_cons.
    rewrite (dot_of_occurs c t Ht), (IH (occurs_tail _ _ _ Ht)). done.
Qed.

Lemma re_match_round_trip_witness :
  re_match ("ITEM" +:+ "[" +:+ "a" +:+ "]") = Some ("ITEM", "a").
Proof. by apply (re_match_round_trip "ITEM" "a"). Defined.

(** Segments within and outside the reach of the lookup of [add_to_data]. *)
Example modelled_segment_examples :
  (modelled_segment <$> ["ITEM"; "ITEM[a]"; "a-b_2"]) = [true; true; true] ∧
  (modelled_segment <$> [""; "*"; "."; ".."; "G["; "@"; "{*}c"; "{}G"; "a b"; "a:b"])
    = [false; false; false; false; false; false; false; false; false; false].
Proof. split; reflexivity. Qed.

(** ** Splitting and joining paths *)

Lemma append_assoc_string (a b c : string) : (a +:+ b) +:+ c = a +:+ (b +:+ c).
Proof. induction a as [|x a IH]; [done|]. by rewrite !append_cons, IH. Qed.

Lemma split_cons c s sep :
  split sep (String c s) =
    if Ascii.eqb c sep then "" :: split sep s
    else match split sep s with
         | h :: t => String c h :: t
         | [] => [String c ""]
         end.
Proof. reflexivity. Qed.

Lemma split_no_sep sep s : occurs sep s = false → split sep s = [s].
Proof.
  induction s as [|c s IH]; [done|].
  rewrite occurs_cons. intros [Hc Hs]%orb_false_iff.
  rewrite split_cons, Ascii.eqb_sym, Hc, (IH Hs). done.
Qed.

Lemma split_first sep first rest :
  occurs sep first = false →
  split sep (first +:+ String sep rest) = first :: split sep rest.
Proof.
  induction first as [|c first IH].
  - intros _. change ("" +:+ String sep rest) with (String sep rest).
    by rewrite split_cons, Ascii.eqb_refl.
  - rewrite occurs_cons. intros [Hc Hfirst]%orb_false_iff.
    rewrite append_cons, split_cons, Ascii.eqb_sym, Hc, (IH Hfirst). done.
Qed.

Lemma join_cons sep x y l :
  join sep (x :: y :: l) = x +:+ sep +:+ join sep (y :: l).
Proof. reflexivity. Qed.

Lemma split_join sep l :
  l ≠ [] →
  Forall (λ entry, occurs sep entry = false) l →
  split sep (join (String sep "") l) = l.
Proof.
  intros Hne Hl. induction Hl as [|x l Hx Hl IH]; [done|].
  destruct l as [|y l].
  - by apply split_no_sep.
  - rewrite join_cons.
    change (String sep "" +:+ join (String sep "") (y :: l))
      with (String sep (join (String sep "") (y :: l))).
    rewrite split_first by done. by rewrite IH.
Qed.

Lemma join_snoc sep l x :
  l ≠ [] → join sep (l ++ [x]) = join sep l +:+ sep +:+ x.
Proof.
  induction l as [|y l IH]; [done|]. intros _.
  destruct l as [|z l]; [done|].
  change ((y :: z :: l) ++ [x]) with (y :: z :: (l ++ [x])).
  rewrite !join_cons.
  change (z :: l ++ [x]) with ((z :: l) ++ [x]).
  rewrite IH by done. by rewrite !append_assoc_string.
Qed.

(** ** [go_to_child], every occurrence *)

Lemma filter_fmap_info {A B} (f : A → B) (P : B → Prop) `{!∀ x, Decision (P x)}
    (l : list A) :
  filter P (f <$> l) = f <$> filter (λ x, P (f x)) l.
Proof.
  induction l as [|x l IH]; [done|].
  rewrite fmap_cons, !filter_cons. destruct (decide (P (f x))); by rewrite IH.
Qed.

(** The entries of [get_child_info] that a spec selects. *)
Lemma options_children_with_info child_info self :
  match re_match child_info with
  | Some (t, name) =>
      filter (λ info, info.1.1 = t ∧ info.1.2 = Some name) (get_child_info self)
  | None =>
      filter (λ info, info.1.1 = child_info) (get_child_info self)
  end
  = (λ child, (tag child, get_NAME child, text child)) <$>
      children_with_info child_info (current_element self).
Proof.
  unfold get_child_info, children_with_info.
  destruct (re_match child_info) as [[t name]|]; by rewrite filter_fmap_info.
Qed.

(** X4.  [get_child_info] lists what [go_to_child] can reach.  Take the
    entries of the list that carry the tag of the spec (and the [NAME] when
    the spec gives one).  With an occurrence from zero on, [go_to_child]
    succeeds exactly when there is an entry of that rank among them, and the
    snapshot of the new cursor is that entry; otherwise it raises the
    [ValueError] and changes nothing. *)
Theorem go_to_child_options child_info occurrence self :
  (0 ≤ occurrence)%Z →
  match
    match re_match child_info with
    | Some (t, name) =>
        filter (λ info, info.1.1 = t ∧ info.1.2 = Some name) (get_child_info self)
    | None =>
        filter (λ info, info.1.1 = child_info) (get_child_info self)
    end !! Z.to_nat occurrence
  with
  | Some info =>
      (go_to_child child_info occurrence self).1 = Ok tt ∧
      get_current_info (go_to_child child_info occurrence self).2 = info
  | None => go_to_child child_info occurrence self = (Raise ValueError, self)
  end.
Proof.
  intros Hocc. rewrite options_children_with_info, list_lookup_fmap.
  rewrite go_to_child_nonneg by done.
  by destruct (children_with_info _ _ !! _).
Qed.

Lemma go_to_child_options_witness :
  (0 ≤ 1)%Z ∧
  (go_to_child "ITEM" 1 (init doc_items ∅)).1 = Ok tt ∧
  get_current_info (go_to_child "ITEM" 1 (init doc_items ∅)).2
    = ("ITEM", Some "b", Some "2").
Proof.
  split; [done|].
  apply (go_to_child_options "ITEM" 1 (init doc_items ∅)). done.
Defined.

(** X5.  Below zero the guard never fires and the list access decides: an
    occurrence [-i] with [i] at most the number of matches moves to the
    [i]-th match from the end and pushes the spec; a lower one raises the
    [IndexError] of the list access and changes nothing. *)
Theorem go_to_child_negative child_info occurrence self :
  (occurrence < 0)%Z →
  go_to_child child_info occurrence self =
    let matches := children_with_info child_info (current_element self) in
    if (- Z.of_nat (length matches) <=? occurrence)%Z then
      match matches !! (length matches - Z.to_nat (- occurrence)) with
      | Some child =>
          (Ok tt, set_current_path (current_path self ++ [child_info])
                    (set_current_element child self))
      | None => (Raise IndexError, self)
      end
    else (Raise IndexError, self).
Proof.
  intros Hneg. unfold go_to_child. cbv zeta.
  set (matches := children_with_info child_info (current_element self)).
  destruct (Z.ltb_spec occurrence (Z.of_nat (length matches))) as [_|?]; [|lia].
  unfold py_index.
  destruct (Z.ltb_spec occurrence 0) as [_|?]; [|lia].
  destruct (Z.leb_spec (- Z.of_nat (length matches)) occurrence) as [Hin|Hout].
  - destruct (Z.leb_spec 0 (occurrence + Z.of_nat (length matches))) as [_|?]; [|lia].
    destruct (Z.ltb_spec (occurrence + Z.of_nat (length matches))
                (Z.of_nat (length matches))) as [_|?]; [|lia].
    cbn [andb].
    replace (Z.to_nat (occurrence + Z.of_nat (length matches)))
      with (length matches - Z.to_nat (- occurrence)) by lia.
    by destruct (matches !! _).
  - destruct (Z.leb_spec 0 (occurrence + Z.of_nat (length matches))) as [?|_]; [lia|].
    done.
Qed.

Lemma go_to_child_negative_witness :
  (-2 < 0)%Z ∧
  get_current_info (go_to_child "ITEM" (-2) (init doc_items ∅)).2
    = ("ITEM", Some "a", Some "1").
Proof.
  split; [done|].
  rewrite (go_to_child_negative "ITEM" (-2) (init doc_items ∅)); [reflexivity|done].
Defined.

(** X6.  Wherever a successful [go_to_child] lands, with whatever
    occurrence, it is on a direct child of the old cursor that carries the
    tag of the spec (and the [NAME] when the spec gives one); the spec is
    pushed on the path stack, the path string grows by a slash and the spec,
    and root, data and strategies stay as they were. *)
Theorem go_to_child_lands child_info occurrence self :
  current_path self ≠ [] →
  (go_to_child child_info occurrence self).1 = Ok tt →
  let self' := (go_to_child child_info occurrence self).2 in
  current_element self' ∈ children (current_element self) ∧
  match re_match child_info with
  | Some (t, name) =>
      tag (current_element self') = t ∧ get_NAME (current_element self') = Some name
  | None => tag (current_element self') = child_info
  end ∧
  current_path self' = current_path self ++ [child_info] ∧
  get_current_path self' = get_current_path self +:+ "/" +:+ child_info ∧
  root self' = root self ∧ data self' = data self ∧
  parsing_strategies self' = parsing_strategies self.
Proof.
  intros Hpath Hok. cbv zeta.
  apply go_to_child_Ok in Hok as (child & Hchild & _ & ->). simpl.
  split_and!; try done.
  - by apply children_with_info_subseteq in Hchild.
  - unfold children_with_info in Hchild.
    destruct (re_match child_info) as [[t name]|];
      by apply list_elem_of_filter in Hchild as [? _].
  - unfold get_current_path. simpl. by apply join_snoc.
Qed.

Lemma go_to_child_lands_witness :
  current_element (go_to_child "ITEM[b]" 0 (init doc_items ∅)).2 ∈ children doc_items ∧
  get_current_path (go_to_child "ITEM[b]" 0 (init doc_items ∅)).2 = "ROOT/ITEM[b]".
Proof.
  pose proof (go_to_child_lands "ITEM[b]" 0 (init doc_items ∅)) as H.
  destruct H as (Hin & _ & _ & Hpath & _); [done|reflexivity|].
  split; [exact Hin|exact Hpath].
Defined.

(** ** [go_to_parent], when it succeeds *)

(** X7.  In a consistent state with the cursor below the root,
    [go_to_parent] succeeds: the new cursor is an element of the tree that
    has the old cursor among its children, the path stack has lost its last
    entry, nothing else has changed, and the state is consistent again. *)
Theorem go_to_parent_moves_up self :
  consistent self →
  current_element self ≠ root self →
  let self' := (go_to_parent self).2 in
  (go_to_parent self).1 = Ok tt ∧
  current_element self' ∈ iter (root self) ∧
  current_element self ∈ children (current_element self') ∧
  current_path self' = removelast (current_path self) ∧
  root self' = root self ∧ data self' = data self ∧
  parsing_strategies self' = parsing_strategies self ∧
  consistent self'.
Proof.
  intros Hself Hne. cbv zeta.
  pose proof (call_consistent self _ Hself (call_go_to_parent self)) as Hself'.
  destruct (go_to_parent_below_root self Hself Hne) as (p & n & Hp & Hcur & _ & Hgo).
  rewrite Hgo in *. simpl. split_and!; try done.
  by apply (below_elem_of_iter _ _ n).
Qed.

Lemma go_to_parent_moves_up_witness :
  (go_to_parent (go_to_child "ITEM" 1 (init doc_items ∅)).2).1 = Ok tt ∧
  current_path (go_to_parent (go_to_child "ITEM" 1 (init doc_items ∅)).2).2 = ["ROOT"].
Proof.
  pose proof (go_to_parent_moves_up (go_to_child "ITEM" 1 (init doc_items ∅)).2) as H.
  destruct H as (Hok & _ & _ & Hpath & _).
  - apply (call_consistent (init doc_items ∅)); [|constructor].
    apply init_consistent, doc_items_unique_ids.
  - intros Heq. apply (f_equal eid) in Heq. vm_compute in Heq. discriminate.
  - split; [exact Hok|exact Hpath].
Defined.

(** ** What every state of the parser object satisfies *)

Lemma head_app_nonempty {A} (l : list A) x : l ≠ [] → head (l ++ [x]) = head l.
Proof. by destruct l. Qed.

Lemma head_removelast {A} (l : list A) : 2 ≤ length l → head (removelast l) = head l.
Proof. destruct l as [|x [|y l]]; simpl; [lia..|done]. Qed.

Lemma call_root self self' : call self self' → root self' = root self.
Proof.
  intros [ci occ s|s|path key s|strategies s]; simpl; [| | |done].
  - unfold go_to_child. destruct (_ <? _)%Z; [|done]. by destruct (py_index _ _).
  - unfold go_to_parent. destruct (same_object _ _); [done|].
    destruct (List.find _ _); [|done]. simpl. by destruct (pop _).
  - unfold add_to_data. by destruct (resolve _ _).
Qed.

Lemma call_head self self' t :
  consistent self → call self self' →
  head (current_path self) = Some t → head (current_path self') = Some t.
Proof.
  intros Hself Hcall Hhead.
  destruct Hcall as [ci occ s|s|path key s|strategies' s].
  - destruct (go_to_child ci occ s).1 as [[]|e] eqn:Hout.
    + apply go_to_child_Ok in Hout as (child & _ & _ & ->). simpl.
      rewrite head_app_nonempty; [done|]. by destruct (current_path s).
    + rewrite go_to_child_raises; [done|]. by rewrite Hout.
  - destruct (same_object (current_element s) (root s)) eqn:Hsame.
    + by rewrite go_to_parent_at_root.
    + assert (current_element s ≠ root s) as Hne.
      { intros Heq. apply (consistent_at_root s Hself) in Heq. congruence. }
      destruct (go_to_parent_below_root s Hself Hne) as (p & n & _ & _ & Hlen & ->).
      simpl. rewrite head_removelast; [done|lia].
  - unfold add_to_data. by destruct (resolve _ _).
  - done.
Qed.

Lemma calls_invariant self self' t :
  rtc call self self' →
  consistent self → head (current_path self) = Some t →
  consistent self' ∧ root self' = root self ∧ head (current_path self') = Some t.
Proof.
  induction 1 as [|s1 s2 s3 Hcall _ IH]; intros Hself Hhead; [done|].
  destruct IH as (? & Hroot & ?).
  - by apply (call_consistent s1).
  - by apply (call_head s1).
  - split_and!; [done| |done]. by rewrite Hroot, (call_root s1 s2).
Qed.

(** X8.  Whatever methods have been called on a parser object built on a
    parsed tree, in whatever order and with whatever outcome: the root is
    still that tree, the cursor is one of its elements, the path stack has as
    many entries as the cursor is deep, plus one, and its first entry is
    still the tag of the root. *)
Theorem reachable_invariant parsed_root self :
  unique_ids parsed_root →
  reachable parsed_root self →
  root self = parsed_root ∧
  current_element self ∈ iter parsed_root ∧
  (∃ n, below parsed_root (current_element self) n ∧
        length (current_path self) = S n) ∧
  head (current_path self) = Some (tag parsed_root).
Proof.
  intros Hids [strategies Hcalls].
  apply (calls_invariant _ _ (tag parsed_root)) in Hcalls
    as ([_ (n & Hbelow & Hlen)] & Hroot & Hhead);
    [|by apply init_consistent|done].
  simpl in Hroot. rewrite Hroot in Hbelow.
  split_and!; [done| |by exists n|done].
  by apply (below_elem_of_iter _ _ n).
Qed.

Lemma reachable_invariant_witness :
  root (go_to_child "ITEM" 0 (init doc_items ∅)).2 = doc_items ∧
  head (current_path (go_to_child "ITEM" 0 (init doc_items ∅)).2) = Some "ROOT".
Proof.
  pose proof (reachable_invariant doc_items (go_to_child "ITEM" 0 (init doc_items ∅)).2
                doc_items_unique_ids) as H.
  destruct H as (Hroot & _ & _ & Hhead).
  - exists ∅. apply rtc_once. constructor.
  - split; [exact Hroot|exact Hhead].
Defined.

(** X9.  No method touches the tree: after any sequence of calls the root
    is the same, and [parse] returns what it returned before unless the
    strategies have been replaced. *)
Theorem parse_unaffected self self' :
  rtc call self self' →
  root self' = root self ∧
  (parsing_strategies self' = parsing_strategies self → parse self' = parse self).
Proof.
  intros Hcalls.
  assert (root self' = root self) as Hroot.
  { induction Hcalls as [|s1 s2 s3 Hcall _ IH]; [done|].
    by rewrite IH, (call_root s1 s2). }
  split; [done|]. intros Hsame. unfold parse. by rewrite Hroot, Hsame.
Qed.

Lemma parse_unaffected_witness :
  parse (add_to_data "ROOT/ITEM[a]" None (go_to_child "ITEM" 1 (init doc_items ∅)).2).2
    = parse (init doc_items ∅).
Proof.
  apply (parse_unaffected (init doc_items ∅)); [|reflexivity].
  eapply rtc_l; [apply (call_go_to_child "ITEM" 1)|].
  apply rtc_once, (call_add_to_data "ROOT/ITEM[a]" None).
Defined.

(** ** [add_to_data] *)

Lemma find_filter_head {A} (P : A → Prop) `{!∀ x, Decision (P x)} (l : list A) :
  List.find (λ x, bool_decide (P x)) l = filter P l !! 0.
Proof.
  induction l as [|x l IH]; [done|].
  rewrite filter_cons. simpl. destruct (decide (P x)) as [HP|HP].
  - by rewrite bool_decide_eq_true_2.
  - by rewrite bool_decide_eq_false_2.
Qed.

(** One segment of a path is resolved to the child that [go_to_child] takes
    at occurrence zero. *)
Lemma resolve_segment spec rest cur :
  resolve (spec :: rest) cur =
    match children_with_info spec cur !! 0 with
    | Some child => resolve rest child
    | None => Raise ValueError
    end.
Proof.
  simpl. unfold children_with_info, find_tag.
  destruct (re_match spec) as [[t name]|]; by rewrite find_filter_head.
Qed.

Lemma resolve_app specs specs' cur :
  resolve (specs ++ specs') cur = e ← resolve specs cur; resolve specs' e.
Proof.
  revert cur. induction specs as [|spec specs IH]; intros cur; [done|].
  change ((spec :: specs) ++ specs') with (spec :: (specs ++ specs')).
  rewrite !resolve_segment. by destruct (_ !! _).
Qed.

(** A path is resolved inside the tree. *)
Lemma resolve_elem_of_iter specs r cur e :
  cur ∈ iter r → resolve specs cur = Ok e → e ∈ iter r.
Proof.
  revert cur. induction specs as [|spec specs IH]; intros cur Hcur.
  - by intros [= <-].
  - rewrite resolve_segment.
    destruct (_ !! 0) as [child|] eqn:Hchild; [|done].
    apply IH. rewrite iter_unfold. right.
    apply (elem_of_iter_child r cur); [done|].
    by apply list_elem_of_lookup_2, children_with_info_subseteq in Hchild.
Qed.

Lemma resolve_raises specs cur e : resolve specs cur = Raise e → e = ValueError.
Proof.
  revert cur. induction specs as [|spec specs IH]; intros cur; [done|].
  rewrite resolve_segment. destruct (_ !! 0); [apply IH|]. by intros [= <-].
Qed.

(** X10.  Take a path whose segments after the first match the pattern or
    are plain tag names.  [add_to_data] never moves the cursor and never
    touches path stack, root or strategies.  When it raises, the error is the
    [ValueError] of an unresolved segment and the data are untouched.  When it
    succeeds, the text of one element of the tree has been stored under the
    given key, or under that element's [NAME] when no key is given, every
    other key reading as before. *)
Theorem add_to_data_outcome path key self :
  Forall (λ segment, modelled_segment segment = true) (tail (split "/" path)) →
  let self' := (add_to_data path key self).2 in
  root self' = root self ∧ current_element self' = current_element self ∧
  current_path self' = current_path self ∧
  parsing_strategies self' = parsing_strategies self ∧
  match (add_to_data path key self).1 with
  | Raise e => e = ValueError ∧ get_data self' = get_data self
  | Ok _ =>
      ∃ cur, cur ∈ iter (root self) ∧
        let k := match key with
                 | Some k => Some k
                 | None => get_NAME cur
                 end in
        get_data self' !! k = Some (text cur) ∧
        ∀ k', k' ≠ k → get_data self' !! k' = get_data self !! k'
  end.
Proof.
  intros _. cbv zeta. unfold add_to_data, get_data.
  destruct (resolve _ _) as [cur|e] eqn:Hresolve; simpl.
  - split_and!; try done. exists cur. split_and!.
    + apply (resolve_elem_of_iter (tail (split "/" path)) (root self) (root self) cur);
        [apply elem_of_iter_self|done].
    + apply lookup_insert_eq.
    + intros k' Hne. by apply lookup_insert_ne.
  - split_and!; try done. by apply resolve_raises in Hresolve.
Qed.

Lemma add_to_data_outcome_witness :
  Forall (λ segment, modelled_segment segment = true)
         (tail (split "/" "ROOT/MISSING")) ∧
  match (add_to_data "ROOT/MISSING" None (init doc_items ∅)).1 with
  | Raise e =>
      e = ValueError ∧
      get_data (add_to_data "ROOT/MISSING" None (init doc_items ∅)).2
        = get_data (init doc_items ∅)
  | Ok _ => False
  end.
Proof.
  split; [repeat constructor|].
  destruct (add_to_data_outcome "ROOT/MISSING" None (init doc_items ∅))
    as (_ & _ & _ & _ & Hout); [repeat constructor|].
  exact Hout.
Defined.

(** X11.  The first segment of the path is never looked at: whatever stands
    before the first slash, the call does the same; and a path without a
    slash succeeds on the root itself. *)
Theorem add_to_data_first_segment first key self :
  occurs "/" first = false →
  (∀ rest, add_to_data (first +:+ "/" +:+ rest) key self
           = add_to_data ("/" +:+ rest) key self) ∧
  add_to_data first key self =
    (Ok tt,
     set_data (<[match key with
                 | Some k => Some k
                 | None => get_NAME (root self)
                 end := text (root self)]> (data self)) self).
Proof.
  intros Hfirst. split.
  - intros rest. unfold add_to_data.
    change ("/" +:+ rest) with (String "/" rest).
    rewrite (split_first "/" first) by done. reflexivity.
  - unfold add_to_data. by rewrite split_no_sep.
Qed.

Lemma add_to_data_first_segment_witness :
  add_to_data "anything/ITEM[b]" None (init doc_items ∅)
    = add_to_data "/ITEM[b]" None (init doc_items ∅) ∧
  (add_to_data "ROOT" (Some "top") (init doc_items ∅)).1 = Ok tt.
Proof.
  pose proof (add_to_data_first_segment "anything" None (init doc_items ∅) eq_refl)
    as [Hrest _].
  pose proof (add_to_data_first_segment "ROOT" (Some "top") (init doc_items ∅) eq_refl)
    as [_ Hroot].
  split; [exact (Hrest "ITEM[b]")|]. by rewrite Hroot.
Defined.

(** ** Paths written by navigation, read by [add_to_data] *)

Lemma go_to_child_first spec self :
  go_to_child spec 0 self =
    match children_with_info spec (current_element self) !! 0 with
    | Some child =>
        (Ok tt, set_current_path (current_path self ++ [spec])
                  (set_current_element child self))
    | None => (Raise ValueError, self)
    end.
Proof. by rewrite go_to_child_nonneg. Qed.

Lemma tail_app_nonempty {A} (l : list A) x : l ≠ [] → tail (l ++ [x]) = tail l ++ [x].
Proof. by destruct l. Qed.

Lemma tail_removelast {A} (l : list A) :
  2 ≤ length l → tail (removelast l) = removelast (tail l).
Proof. destruct l as [|x [|y l]]; simpl; [lia..|done]. Qed.

Lemma Forall_removelast {A} (P : A → Prop) (l : list A) :
  Forall P l → Forall P (removelast l).
Proof.
  intros Hl. rewrite removelast_firstn_len. by apply Forall_take.
Qed.

Lemma addressed_init parsed_root strategies :
  occurs "/" (tag parsed_root) = false → addressed (init parsed_root strategies).
Proof. intros Htag. split_and!; [done| |done|done]. by constructor. Qed.

Lemma addressed_go_to_child spec self :
  addressed self →
  occurs "/" spec = false → modelled_segment spec = true →
  addressed (go_to_child spec 0 self).2.
Proof.
  intros (Hne & Hslash & Hmodelled & Hresolve) Hspec Hseg. rewrite go_to_child_first.
  destruct (_ !! 0) as [child|] eqn:Hchild; [|done].
  split_and!; simpl.
  - by destruct (current_path self).
  - apply Forall_app. split; [done|]. by constructor.
  - rewrite tail_app_nonempty by done.
    apply Forall_app. split; [done|]. by constructor.
  - rewrite tail_app_nonempty, resolve_app, Hresolve by done.
    change (resolve [spec] (current_element self) = Ok child).
    by rewrite resolve_segment, Hchild.
Qed.

Lemma addressed_go_to_parent self :
  consistent self → addressed self → addressed (go_to_parent self).2.
Proof.
  intros Hself (Hne & Hslash & Hmodelled & Hresolve).
  destruct (same_object (current_element self) (root self)) eqn:Hsame.
  { by rewrite go_to_parent_at_root. }
  assert (current_element self ≠ root self) as Hroot.
  { intros Heq. apply (consistent_at_root self Hself) in Heq. congruence. }
  destruct (go_to_parent_below_root self Hself Hroot)
    as (p & n & Hp & Hcur & Hlen & ->).
  split_and!; simpl.
  - intros Hnil. rewrite removelast_firstn_len in Hnil.
    apply (f_equal length) in Hnil. rewrite length_take in Hnil. simpl in Hnil. lia.
  - by apply Forall_removelast.
  - rewrite tail_removelast by lia. by apply Forall_removelast.
  - rewrite tail_removelast by lia.
    destruct (current_path self) as [|first specs]; [done|]. simpl in *.
    destruct specs as [|spec specs _] using rev_ind; [simpl in Hlen; lia|].
    rewrite removelast_last. rewrite resolve_app in Hresolve.
    destruct (resolve specs (root self)) as [q|e] eqn:Hq; [|done].
    change (resolve [spec] q = Ok (current_element self)) in Hresolve.
    rewrite resolve_segment in Hresolve.
    destruct (_ !! 0) as [child|] eqn:Hchild; [|done].
    injection Hresolve as ->.
    apply list_elem_of_lookup_2, children_with_info_subseteq in Hchild.
    f_equal. destruct Hself as [Hids _].
    apply (unique_parent (root self) q p (current_element self) (current_element self));
      try done.
    + apply (resolve_elem_of_iter specs (root self) (root self) q);
        [apply elem_of_iter_self|done].
    + by apply (below_elem_of_iter _ _ n).
Qed.

(** X12.  The path stack addresses the cursor from the start, and keeps
    doing so through [go_to_child] at occurrence zero with a spec that is
    free of slashes and matches the pattern or is a plain tag name, through
    [go_to_parent], [add_to_data] and [set_strategy]. *)
Theorem addressed_kept :
  (∀ parsed_root strategies,
     occurs "/" (tag parsed_root) = false → addressed (init parsed_root strategies)) ∧
  (∀ self,
     consistent self → addressed self →
     (∀ spec,
        occurs "/" spec = false → modelled_segment spec = true →
        addressed (go_to_child spec 0 self).2) ∧
     addressed (go_to_parent self).2 ∧
     (∀ path key, addressed (add_to_data path key self).2) ∧
     (∀ strategies, addressed (set_strategy strategies self))).
Proof.
  split; [apply addressed_init|].
  intros self Hself Haddr. split_and!.
  - intros spec Hspec Hseg. by apply addressed_go_to_child.
  - by apply addressed_go_to_parent.
  - intros path key. unfold add_to_data. by destruct (resolve _ _).
  - done.
Qed.

Lemma addressed_kept_witness :
  addressed (go_to_parent (go_to_child "ITEM[b]" 0 (init doc_items ∅)).2).2 ∧
  addressed (go_to_child "ITEM" 0 (init doc_items ∅)).2.
Proof.
  destruct addressed_kept as [Hinit Hkept].
  pose proof (init_consistent doc_items ∅ doc_items_unique_ids) as Hself.
  pose proof (Hinit doc_items ∅ eq_refl) as Haddr.
  destruct (Hkept _ Hself Haddr) as (Hchild & _).
  split.
  - pose proof (Hchild "ITEM[b]" eq_refl eq_refl) as Hb.
    apply (Hkept (go_to_child "ITEM[b]" 0 (init doc_items ∅)).2); [|exact Hb].
    apply (call_consistent (init doc_items ∅)); [exact Hself|constructor].
  - exact (Hchild "ITEM" eq_refl eq_refl).
Defined.

(** X13.  When the path stack addresses the cursor (its entries after the
    first matching the pattern or being plain tag names), [add_to_data] called
    with the string of [get_current_path] succeeds and stores the text of the
    cursor, under the given key or else under the cursor's [NAME]. *)
Theorem add_to_data_current_path key self :
  addressed self →
  add_to_data (get_current_path self) key self =
    (Ok tt,
     set_data (<[match key with
                 | Some k => Some k
                 | None => get_NAME (current_element self)
                 end := text (current_element self)]> (data self)) self).
Proof.
  intros (Hne & Hslash & _ & Hresolve).
  unfold add_to_data, get_current_path.
  by rewrite split_join, Hresolve.
Qed.

Lemma add_to_data_current_path_witness :
  get_current_path (go_to_child "ITEM" 0 (init doc_items ∅)).2 = "ROOT/ITEM" ∧
  get_data (add_to_data (get_current_path (go_to_child "ITEM" 0 (init doc_items ∅)).2)
              None (go_to_child "ITEM" 0 (init doc_items ∅)).2).2 !! Some "a"
    = Some (Some "1") ∧
  get_data (add_to_data (get_current_path (go_to_child "ITEM[b]" 0 (init doc_items ∅)).2)
              None (go_to_child "ITEM[b]" 0 (init doc_items ∅)).2).2 !! Some "b"
    = Some (Some "2").
Proof.
  split; [reflexivity|]. split.
  - rewrite (add_to_data_current_path None (go_to_child "ITEM" 0 (init doc_items ∅)).2).
    + reflexivity.
    + apply addressed_go_to_child; [|reflexivity|reflexivity].
      apply addressed_init. reflexivity.
  - rewrite (add_to_data_current_path None (go_to_child "ITEM[b]" 0 (init doc_items ∅)).2).
    + reflexivity.
    + apply addressed_go_to_child; [|reflexivity|reflexivity].
      apply addressed_init. reflexivity.
Defined.

(** ** The attribute strategy *)

Lemma dict_get_app k d d' :
  dict_get k (d ++ d') =
    match dict_get k d with
    | Some w => Some w
    | None => dict_get k d'
    end.
Proof.
  induction d as [|[k0 v0] d IH]; simpl; [done|].
  by destruct (decide (k = k0)).
Qed.

Lemma dict_get_absent {A} (f : A → Key * Value) k (l : list A) :
  Forall (λ x, (f x).1 ≠ k) l → dict_get k (f <$> l) = None.
Proof.
  induction 1 as [|x l Hx _ IH]; [done|].
  rewrite fmap_cons. destruct (f x) as [k0 v0] eqn:Hfx. simpl in *.
  by rewrite decide_False by done.
Qed.

Lemma fold_left_dict_set_fmap {A} (f : A → Key * Value) (l : list A) d :
  fold_left (λ d x, dict_set (f x).1 (f x).2 d) l d =
    fold_left (λ d kv, dict_set kv.1 kv.2 d) (f <$> l) d.
Proof. revert d. induction l as [|x l IH]; intros d; [done|]. apply IH. Qed.

(** The pair the attribute strategy files for a child. *)
Lemma attribute_recursive_parse_pairs element :
  attribute_recursive_parse element =
    Ok (VDict [(Some (tag element),
                VDict (fold_left (λ d kv, dict_set kv.1 kv.2 d)
                         ((λ child, (get_NAME child, text_value (text child)))
                            <$> children element) []))]).
Proof.
  unfold attribute_recursive_parse.
  by rewrite <- (fold_left_dict_set_fmap
                   (λ child, (get_NAME child, text_value (text child)))).
Qed.

(** X14.  The attribute strategy always returns one record keyed by the
    tag of the element, [NAME] or not.  Its inner dictionary has distinct
    keys; a child's [NAME] (or [None] when it has none) leads to that child's
    text unless a later child carries the same [NAME], and a key that is no
    child's [NAME] is absent. *)
Theorem attribute_strategy_lookup element :
  ∃ inner,
    attribute_recursive_parse element = Ok (VDict [(Some (tag element), VDict inner)]) ∧
    NoDup inner.*1 ∧
    (∀ before child after,
       children element = before ++ child :: after →
       Forall (λ c, get_NAME c ≠ get_NAME child) after →
       dict_get (get_NAME child) inner = Some (text_value (text child))) ∧
    (∀ k, Forall (λ c, get_NAME c ≠ k) (children element) → dict_get k inner = None).
Proof.
  rewrite attribute_recursive_parse_pairs. eexists. split; [reflexivity|].
  split_and!.
  - apply dict_fold_keys. constructor.
  - intros before child after Hchildren Hafter.
    rewrite dict_get_fold, Hchildren, fmap_app, fmap_cons, reverse_app, reverse_cons.
    rewrite <- fmap_reverse, <- app_assoc, !dict_get_app.
    rewrite (dict_get_absent (λ child, (get_NAME child, text_value (text child))));
      [|by apply Forall_reverse].
    simpl. by rewrite decide_True.
  - intros k Hk. rewrite dict_get_fold, <- fmap_reverse.
    rewrite (dict_get_absent (λ child, (get_NAME child, text_value (text child))));
      [done|by apply Forall_reverse].
Qed.

Lemma attribute_strategy_lookup_witness :
  ∃ inner,
    attribute_recursive_parse doc_same_name = Ok (VDict [(Some "R", VDict inner)]) ∧
    dict_get (Some "p") inner = Some VNone ∧
    dict_get (Some "q") inner = None.
Proof.
  destruct (attribute_strategy_lookup doc_same_name) as (inner & Heq & _ & Hlast & Hnone).
  exists inner. split; [exact Heq|]. split.
  - refine (Hlast [mkElement 1 "X" {["NAME" := "p"]} None [mkElement 2 "Z" ∅ None []]]
                  (mkElement 3 "Y" {["NAME" := "p"]} None []) [] eq_refl _).
    constructor.
  - apply Hnone. constructor.
    + intros Hq. vm_compute in Hq. discriminate.
    + constructor; [|constructor].
      intros Hq. vm_compute in Hq. discriminate.
Defined.

(** X15.  The attribute strategy reads one level only: two elements with
    the same tag whose children agree, in order, on [NAME] and text get the
    same result, whatever lies below the children and whatever [NAME] and
    text the elements themselves have. *)
Theorem attribute_strategy_one_level element element' :
  attribute_view element = attribute_view element' →
  attribute_recursive_parse element = attribute_recursive_parse element'.
Proof.
  unfold attribute_view. intros [= Htag Hchildren].
  rewrite !attribute_recursive_parse_pairs, Htag.
  assert (∀ e, (λ child, (get_NAME child, text_value (text child))) <$> children e
               = (λ nt, (nt.1, text_value nt.2))
                   <$> ((λ child, (get_NAME child, text child)) <$> children e)) as Hview.
  { intros e. by rewrite <- list_fmap_compose. }
  by rewrite !Hview, Hchildren.
Qed.

Lemma attribute_strategy_one_level_witness :
  attribute_recursive_parse
    (mkElement 0 "A" ∅ None [mkElement 1 "B" {["NAME" := "n"]} (Some "x") []])
  = attribute_recursive_parse
      (mkElement 5 "A" {["NAME" := "top"]} (Some "t")
         [mkElement 6 "C" {["NAME" := "n"]} (Some "x") [leaf 7 "D" "deep" "y"]]).
Proof. apply attribute_strategy_one_level. reflexivity. Defined.

(** ** The default fold and the texts *)

Lemma forget_text_unfold e :
  forget_text e = mkElement (eid e) (tag e) (attrib e) None (forget_text <$> children e).
Proof. by destruct e. Qed.

Lemma recursive_parse_forget_text element :
  recursive_parse ∅ (forget_text element) = recursive_parse ∅ element.
Proof.
  induction element as [element IH] using Element_tree_ind.
  rewrite !recursive_parse_default by apply lookup_empty.
  rewrite forget_text_unfold. simpl.
  assert (tag <$> (forget_text <$> children element) = tag <$> children element) as ->.
  { rewrite <- list_fmap_compose. apply list_fmap_ext. intros i c _. simpl.
    by rewrite forget_text_unfold. }
  assert (child_pairs (recursive_parse ∅) (forget_text <$> children element)
          = child_pairs (recursive_parse ∅) (children element)) as ->.
  { induction IH as [|c cs Hc _ IHcs]; [done|].
    rewrite fmap_cons. simpl. unfold child_pair. by rewrite Hc, IHcs. }
  done.
Qed.

(** X16.  With no strategies registered the fold reads no text at all: two
    documents that differ in their texts only fold to the same structure. *)
Theorem default_fold_reads_no_text element element' :
  forget_text element = forget_text element' →
  recursive_parse ∅ element = recursive_parse ∅ element'.
Proof.
  intros Hsame.
  by rewrite <- (recursive_parse_forget_text element), Hsame,
       recursive_parse_forget_text.
Qed.

Lemma default_fold_reads_no_text_witness :
  recursive_parse ∅ doc_items =
  recursive_parse ∅
    (mkElement 0 "ROOT" ∅ (Some "t")
       [leaf 1 "ITEM" "a" "other"; mkElement 2 "ITEM" {["NAME" := "b"]} None []]).
Proof. apply default_fold_reads_no_text. reflexivity. Defined.

(** ** Failing children *)

(** X17.  In the default fold the first child, in document order, whose
    fold raises or yields no first item stops the fold: the element's fold
    raises that child's error, whatever the later children are and whichever
    of the two shapes was due. *)
Theorem default_fold_first_failure strategies element before child after e :
  strategies !! tag element = None →
  children element = before ++ child :: after →
  Forall (λ c, ∃ kv, child_pair (recursive_parse strategies) c = Ok kv) before →
  child_pair (recursive_parse strategies) child = Raise e →
  recursive_parse strategies element = Raise e.
Proof.
  intros Hnone Hchildren Hbefore Hchild.
  rewrite recursive_parse_default by done.
  by rewrite Hchildren, (child_pairs_first_failure _ before child after e).
Qed.

Lemma default_fold_first_failure_witness :
  recursive_parse {["B" := EmptyStrategy]}
    (mkElement 0 "A" ∅ None
       [mkElement 1 "C" ∅ None []; mkElement 2 "B" ∅ None []; mkElement 3 "C" ∅ None []])
  = Raise IndexError.
Proof.
  apply (default_fold_first_failure _ _
           [mkElement 1 "C" ∅ None []] (mkElement 2 "B" ∅ None [])
           [mkElement 3 "C" ∅ None []]).
  - reflexivity.
  - reflexivity.
  - constructor; [|constructor]. by eexists.
  - reflexivity.
Defined.
